(** * Fields and potentials: the field sampler, the seed generator and the
      event handlers of [fields1e.py]

    The program keeps a global list of point charges [(q, cx, cy)], samples the
    electric field and the potential of that list on a grid, and lets mouse and
    key events edit the list.

    Arithmetic.  [compute_field] is written once, over an arithmetic given as a
    record of operations, and read in two of them:
    - [exact]: every float is the real number it stands for and every
      operation is the exact one on [R].  Sums do not depend on their order
      here.
    - [binary64]: IEEE 754 double precision, the arithmetic the program runs
      in, as Rocq's primitive floats.  Numpy's [**] is a parameter of this
      reading, its rounding being left to the C library.
    What holds in every arithmetic is stated for every arithmetic.  The seeds
    and the event handlers are read over the reals; the handlers use numbers
    only through the outcome of a comparison.

    Arrays.  A numpy array is the list of its elements in storage order; the
    operations [compute_field] uses are all elementwise, so the shape plays no
    part beyond the two coordinate arrays having the same one. *)

From Stdlib Require Import Floats.
From Stdlib Require Import Reals Lra Lia ZArith.
From stdpp Require Import base list strings gmap.

Set Warnings "-inexact-float".

#[local] Open Scope R_scope.

(** ** Numbers of the handlers and the seeds *)

Module Num.

#[global] Instance Rlt_decision : RelDecision Rlt := Rlt_dec.
#[global] Instance Rgt_decision : RelDecision Rgt := Rgt_dec.
#[global] Instance Rle_decision : RelDecision Rle := Rle_dec.

(** [np.hypot(a, b)] *)
Definition hypot (a b : R) : R := sqrt (a ^ 2 + b ^ 2).

(** Python's [int(v)] on a float: the fractional part is dropped, so the
    result is rounded toward zero. *)
Definition int (v : R) : Z :=
  if decide (0 <= v) then Zfloor v else Zceil v.

(** [range(n)] *)
Definition range (n : Z) : list Z := seqZ 0 n.

End Num.

(** ** Charges and [compute_field] *)

Module Field.

(** The operations and literals [compute_field] uses. *)
Record arith (F : Type) : Type := Arith {
  a_zero : F;
  a_guard : F;
  a_cutoff : F;
  a_add : F → F → F;
  a_sub : F → F → F;
  a_mul : F → F → F;
  a_div : F → F → F;
  a_pow : F → nat → F;
  a_sqrt : F → F;
  a_gt : F → F → bool
}.

Arguments a_zero {F} _.
Arguments a_guard {F} _.
Arguments a_cutoff {F} _.
Arguments a_add {F} _ _ _.
Arguments a_sub {F} _ _ _.
Arguments a_mul {F} _ _ _.
Arguments a_div {F} _ _ _.
Arguments a_pow {F} _ _ _.
Arguments a_sqrt {F} _ _.
Arguments a_gt {F} _ _ _.

(** The reals, with [0], [1e-20] and [0.22] for the three literals. *)
Definition exact : arith R :=
  {| a_zero := 0; a_guard := 1e-20; a_cutoff := 0.22;
     a_add := Rplus; a_sub := Rminus; a_mul := Rmult; a_div := Rdiv;
     a_pow := pow; a_sqrt := sqrt;
     a_gt := λ u v, bool_decide (u > v) |}.

(** Double precision.  [npy_power u n] stands for numpy's [u ** n]. *)
Definition binary64 (npy_power : float → nat → float) : arith float :=
  {| a_zero := 0%float; a_guard := 1e-20%float; a_cutoff := 0.22%float;
     a_add := PrimFloat.add; a_sub := PrimFloat.sub; a_mul := PrimFloat.mul;
     a_div := PrimFloat.div;
     a_pow := npy_power; a_sqrt := PrimFloat.sqrt;
     a_gt := λ u v, PrimFloat.ltb v u |}.

(** A masked array: the data and, for every element, whether it is masked
    (masked elements are the invalid ones). *)
Record masked_array (F : Type) : Type := MaskedArray {
  data : list F;
  masked : list bool
}.

Arguments MaskedArray {F} _ _.
Arguments data {F} _.
Arguments masked {F} _.

(** The four arrays the loop of [compute_field] updates. *)
Record accum (F : Type) : Type := Accum {
  Ex : list F;
  Ey : list F;
  V : list F;
  mask : list bool
}.

Arguments Accum {F} _ _ _ _.
Arguments Ex {F} _.
Arguments Ey {F} _.
Arguments V {F} _.
Arguments mask {F} _.

(** Element [i] of a masked array is valid when it is not masked. *)
Definition valid {F : Type} (m : masked_array F) (i : nat) : Prop :=
  masked m !! i = Some false.

(** [np.ma.masked_where(condition, a)] *)
Definition masked_where {F : Type} (condition : list bool) (a : list F)
    : masked_array F :=
  {| data := a; masked := condition |}.

(** A charge is the tuple [(q, cx, cy)]. *)
Definition magnitude {F : Type} (c : F * F * F) : F := c.1.1.
Definition pos_x {F : Type} (c : F * F * F) : F := c.1.2.
Definition pos_y {F : Type} (c : F * F * F) : F := c.2.

Section sampler.

Context {F : Type} (A : arith F).

#[local] Notation "u + v" := (a_add A u v).
#[local] Notation "u - v" := (a_sub A u v).
#[local] Notation "u * v" := (a_mul A u v).
#[local] Notation "u / v" := (a_div A u v).
#[local] Notation "u ** n" := (a_pow A u n) (at level 30, right associativity).
#[local] Notation "u >? v" := (a_gt A u v) (at level 70, no associativity).

(** [np.zeros_like(a)] and [np.ones_like(a, dtype=bool)] *)
Definition zeros_like (a : list F) : list F := (λ _, a_zero A) <$> a.
Definition ones_like (a : list F) : list bool := (λ _, true) <$> a.

Definition init (x y : list F) : accum F :=
  {| Ex := zeros_like x; Ey := zeros_like y; V := zeros_like x;
     mask := ones_like x |}.

(** One iteration of [for charge in charges]. *)
Definition body (x y : list F) (a : accum F) (c : F * F * F) : accum F :=
  let '(q, cx, cy) := c in
  let dx := (λ v, v - cx) <$> x in
  let dy := (λ v, v - cy) <$> y in
  let r := zip_with (λ u v, a_sqrt A (u ** 2 + v ** 2) + a_guard A) dx dy in
  let mask' := zip_with andb (mask a) ((λ v, v >? a_cutoff A) <$> r) in
  let Ex' := zip_with (a_add A) (Ex a) (zip_with (λ u v, q * u / v ** 3) dx r) in
  let Ey' := zip_with (a_add A) (Ey a) (zip_with (λ u v, q * u / v ** 3) dy r) in
  let V' := zip_with (a_add A) (V a) ((λ v, q / v) <$> r) in
  {| Ex := Ex'; Ey := Ey'; V := V'; mask := mask' |}.

Definition loop (x y : list F) (charges : list (F * F * F)) : accum F :=
  foldl (body x y) (init x y) charges.

Definition compute_field (x y : list F) (charges : list (F * F * F))
  : masked_array F * masked_array F * masked_array F :=
  let a := loop x y charges in
  let hidden := negb <$> mask a in
  (masked_where hidden (Ex a), masked_where hidden (Ey a),
   masked_where hidden (V a)).

(** The three outputs by name. *)
Definition out_Ex x y cs : masked_array F := (compute_field x y cs).1.1.
Definition out_Ey x y cs : masked_array F := (compute_field x y cs).1.2.
Definition out_V x y cs : masked_array F := (compute_field x y cs).2.

(** *** The quantities at one sample point *)

(** Euclidean distance of the point [(px, py)] to the charge centre, as the
    arithmetic computes it. *)
Definition dist (px py : F) (c : F * F * F) : F :=
  a_sqrt A ((px - pos_x c) ** 2 + (py - pos_y c) ** 2).

(** Regularised distance, the variable [r] of the loop. *)
Definition r_at (px py : F) (c : F * F * F) : F :=
  dist px py c + a_guard A.

(** Coulomb contributions of one charge, as the specification words them:
    the field [(q dx / r^3, q dy / r^3)] and the potential [q / r]. *)
Definition coulomb_Ex (px py : F) (c : F * F * F) : F :=
  magnitude c * (px - pos_x c) / r_at px py c ** 3.
Definition coulomb_Ey (px py : F) (c : F * F * F) : F :=
  magnitude c * (py - pos_y c) / r_at px py c ** 3.
Definition coulomb_V (px py : F) (c : F * F * F) : F :=
  magnitude c / r_at px py c.

(** Superposition: the contributions of the charges, added up from zero in
    list order. *)
Definition superpose (f : F → F → F * F * F → F) (px py : F)
    (cs : list (F * F * F)) : F :=
  foldl (λ s c, s + f px py c) (a_zero A) cs.

(** The values the four accumulated arrays hold at one index. *)
Definition at_index (i : nat) (a : accum F) (ex ey v : F) (m : bool) : Prop :=
  Ex a !! i = Some ex ∧ Ey a !! i = Some ey ∧ V a !! i = Some v ∧
  mask a !! i = Some m.

(** The conjunction the mask accumulates over a list of charges. *)
Definition all_far (px py : F) (cs : list (F * F * F)) : bool :=
  forallb (λ c, r_at px py c >? a_cutoff A) cs.

End sampler.

(** Sum of a list of reals. *)
Definition Rsum (l : list R) : R := foldr Rplus 0 l.

End Field.

(** ** Seeds, rendering and the event handlers *)

(** A charge of the running program. *)
Abbreviation charge := (R * R * R)%type.

Module App.

Import Field.

(** Marker colours ['r'] and ['b']. *)
Inductive color : Type := red | blue.

(** One redraw by [plot_field]: the layers in drawing order.  [streamplot]
    carries the start points when the field-line layer is drawn. *)
Record frame : Type := Frame {
  fields : masked_array R * masked_array R * masked_array R;
  streamplot : option (list (R * R));
  contour : bool;
  heatmap : bool;
  markers : list (color * R * R)
}.

(** What the program does to the outside world: a redraw of the figure, the
    two blocking prompts, and a file written by [plt.savefig]. *)
Inductive effect : Type :=
  | Draw (f : frame)
  | AskFloat (initialvalue : R)
  | Input (prompt : string)
  | Savefig (fname : string).

(** The module-level variables the handlers read and write, with the trace of
    effects so far. *)
Record state : Type := State {
  charges : list charge;
  show_field_lines : bool;
  show_equipotential_lines : bool;
  show_equipotential_map : bool;
  trace : list effect
}.

Definition set_charges (cs : list charge) (st : state) : state :=
  {| charges := cs;
     show_field_lines := show_field_lines st;
     show_equipotential_lines := show_equipotential_lines st;
     show_equipotential_map := show_equipotential_map st;
     trace := trace st |}.

Definition emit (e : effect) (st : state) : state :=
  {| charges := charges st;
     show_field_lines := show_field_lines st;
     show_equipotential_lines := show_equipotential_lines st;
     show_equipotential_map := show_equipotential_map st;
     trace := trace st ++ [e] |}.

(** Exceptions a handler can end with. *)
Inductive exn : Type :=
  | NameError (name : string)
  | IndexError
  | TypeError.

(** A handler either returns or raises; either way it leaves a state. *)
Inductive outcome : Type :=
  | Returned (st : state)
  | Raised (e : exn) (st : state).

Definition bind (o : outcome) (k : state → outcome) : outcome :=
  match o with
  | Returned st => k st
  | Raised e st => Raised e st
  end.

Notation "o >>> k" := (bind o k) (at level 60, right associativity).

Definition final (o : outcome) : state :=
  match o with Returned st | Raised _ st => st end.

(** *** The sample grid *)

(** [np.linspace(start, stop, num)] *)
Definition linspace (start stop : R) (num : Z) : list R :=
  (λ i, start + IZR i * ((stop - start) / IZR (num - 1))) <$> Num.range num.

(** [np.meshgrid(x, y)], both results flattened row by row: row [j] of the
    first is [x], row [j] of the second repeats [y[j]]. *)
Definition meshgrid (x y : list R) : list R * list R :=
  (y ≫= (λ _, x), y ≫= (λ v, (λ _, v) <$> x)).

Definition grid_X : list R :=
  (meshgrid (linspace (-10) 10 1200) (linspace (-10) 10 1200)).1.
Definition grid_Y : list R :=
  (meshgrid (linspace (-10) 10 1200) (linspace (-10) 10 1200)).2.

(** *** Start points of the field lines *)

(** The inner loop of [plot_field] for one charge. *)
Definition seeds_of (c : charge) : list (R * R) :=
  let num_field_lines := Num.int (Rabs (magnitude c) * 16) in
  let cx := pos_x c in
  let cy := pos_y c in
  let radius := 0.35 in
  (λ i, let angle := 2 * PI * IZR i / IZR num_field_lines in
        (cx + radius * cos angle, cy + radius * sin angle))
    <$> Num.range num_field_lines.

(** The outer loop: every charge appends its seeds to [start_points]. *)
Definition start_points (cs : list charge) : list (R * R) :=
  foldl (λ acc c, acc ++ seeds_of c) [] cs.

(** *** [plot_field] *)

Definition marker (c : charge) : color * R * R :=
  (if decide (magnitude c > 0) then red else blue, pos_x c, pos_y c).

Definition render (st : state) : frame :=
  let sp := start_points (charges st) in
  {| fields := compute_field exact grid_X grid_Y (charges st);
     streamplot :=
       if show_field_lines st && bool_decide (0 < length sp)%nat
       then Some sp else None;
     contour := show_equipotential_lines st;
     heatmap := show_equipotential_map st;
     markers := marker <$> charges st |}.

Definition plot_field (st : state) : state := emit (Draw (render st)) st.

(** *** [modify_charge_dialog] *)

(** [answer] is what [simpledialog.askfloat] returns: the number entered, or
    [None] when the dialog is cancelled. *)
Definition modify_charge_dialog (index : nat) (answer : option R)
    (st : state) : outcome :=
  match charges st !! index with
  | None => Raised IndexError st
  | Some c =>
      let q := magnitude c in
      let st1 := emit (AskFloat q) st in
      let st2 :=
        match answer with
        | Some new_q =>
            set_charges (<[index := (new_q, pos_x c, pos_y c)]> (charges st1)) st1
        | None => st1
        end in
      Returned (plot_field st2)
  end.

(** *** [onclick] *)

Record mouse_event : Type := MouseEvent {
  inaxes : bool;
  button : Z;
  key : option string;
  xdata : R;
  ydata : R
}.

(** How the loop over [enumerate(charges)] ends: by one of its two [return]
    branches, or by running off the end of the list. *)
Inductive scan_result : Type :=
  | Delete (i : nat)
  | Modify (i : nat)
  | FallThrough.

Fixpoint scan (event : mouse_event) (i : nat) (cs : list charge)
    : scan_result :=
  match cs with
  | [] => FallThrough
  | c :: rest =>
      if bool_decide
           (Num.hypot (xdata event - pos_x c) (ydata event - pos_y c) < 0.3)
      then
        if bool_decide (button event = 3%Z) then Delete i
        else if bool_decide (button event = 1%Z)
                && bool_decide (key event = Some "shift"%string)
        then Modify i
        else scan event (S i) rest
      else scan event (S i) rest
  end.

Definition onclick (event : mouse_event) (answer : option R) (st : state)
    : outcome :=
  if inaxes event then
    match scan event 0 (charges st) with
    | Delete i => Returned (plot_field (set_charges (delete i (charges st)) st))
    | Modify i => modify_charge_dialog i answer st
    | FallThrough =>
        if bool_decide (button event = 1%Z) then
          Returned (plot_field
            (set_charges (charges st ++ [(1, xdata event, ydata event)]) st))
        else if bool_decide (button event = 3%Z) then
          Returned (plot_field
            (set_charges (charges st ++ [(-1, xdata event, ydata event)]) st))
        else Returned st
    end
  else Returned st.

(** *** [clear_charges] and [onkeypress] *)

Definition clear_charges (st : state) : state :=
  plot_field (set_charges [] st).

Definition set_flags (fl el em : bool) (st : state) : state :=
  {| charges := charges st;
     show_field_lines := fl;
     show_equipotential_lines := el;
     show_equipotential_map := em;
     trace := trace st |}.

(** Values a module-level name can hold, as far as [onkeypress] tells them
    apart: a string, a boolean, or any other object (module, function, list,
    figure). *)
Inductive pyval : Type :=
  | PyStr (s : string)
  | PyBool (b : bool)
  | PyObject.

(** The module namespace once the script has run to [plt.show()]: the imports,
    the three flags, the functions, [charges], [fig] and [ax]. *)
Definition module_globals (st : state) : gmap string pyval :=
  list_to_map
    [("np", PyObject); ("plt", PyObject); ("Circle", PyObject);
     ("colors", PyObject); ("tk", PyObject); ("simpledialog", PyObject);
     ("show_field_lines", PyBool (show_field_lines st));
     ("show_equipotential_lines", PyBool (show_equipotential_lines st));
     ("show_equipotential_map", PyBool (show_equipotential_map st));
     ("compute_field", PyObject); ("onclick", PyObject);
     ("onkeypress", PyObject); ("clear_charges", PyObject);
     ("plot_field", PyObject); ("modify_charge_dialog", PyObject);
     ("charges", PyObject); ("fig", PyObject); ("ax", PyObject)]%string.

(** [plt.savefig(fname, format="jpg", dpi=1000)] *)
Definition savefig (fname : pyval) (st : state) : outcome :=
  match fname with
  | PyStr s => Returned (emit (Savefig s) st)
  | _ => Raised TypeError st
  end.

(** [typed] is the line [input] reads.  The branch for ["s"] binds it to the
    local [fields_save]; the argument of [savefig] is the name [field_save],
    which the function never assigns, so it is looked up in the module
    namespace (no builtin has that name). *)
Definition onkeypress (key : string) (typed : string) (st : state) : outcome :=
  (if bool_decide (key = "1"%string) then
     Returned (set_flags (negb (show_field_lines st))
                 (show_equipotential_lines st) (show_equipotential_map st) st)
   else if bool_decide (key = "2"%string) then
     Returned (set_flags (show_field_lines st)
                 (negb (show_equipotential_lines st))
                 (show_equipotential_map st) st)
   else if bool_decide (key = "c"%string) then
     Returned (clear_charges st)
   else if bool_decide (key = "3"%string) then
     Returned (set_flags (show_field_lines st) (show_equipotential_lines st)
                 (negb (show_equipotential_map st)) st)
   else if bool_decide (key = "s"%string) then
     let st1 := emit (Input "Save as?") st in
     let fields_save := typed in
     match module_globals st1 !! "field_save"%string with
     | Some field_save => savefig field_save st1
     | None => Raised (NameError "field_save") st1
     end
   else Returned st)
  >>> (λ st', Returned (plot_field st')).

(** *** Hit test *)

(** The click is within the hit radius of the charge: the test of the loop in
    [onclick]. *)
Definition near (event : mouse_event) (c : charge) : Prop :=
  Num.hypot (xdata event - pos_x c) (ydata event - pos_y c) < 0.3.

#[global] Instance near_decision (event : mouse_event) (c : charge)
    : Decision (near event c) :=
  decide (Num.hypot (xdata event - pos_x c) (ydata event - pos_y c) < 0.3).

(** [i] is the lowest index of a charge within the hit radius. *)
Definition first_near (event : mouse_event) (cs : list charge) (i : nat)
    : Prop :=
  (∃ c, cs !! i = Some c ∧ near event c) ∧
  ∀ j c, (j < i)%nat → cs !! j = Some c → ¬ near event c.

End App.

(** ** Double precision at the level of mantissa and exponent *)

Module B64.

(** The literals [0.22] and [1e-20] as binary64 numbers: sign, mantissa and
    exponent of the nearest double. *)
Definition cutoff : spec_float := S754_finite false 7926335344172073 (-55).
Definition guard : spec_float := S754_finite false 6646139978924579 (-119).

(** A number that is not an infinity and, when finite and not zero, has an
    exponent of at most [b]. *)
Definition below (b : Z) (f : spec_float) : Prop :=
  match f with
  | S754_finite _ _ e => (e <= b)%Z
  | S754_infinity _ => False
  | _ => True
  end.

(** Power by repeated multiplication, for the examples that run
    [compute_field] in double precision. *)
Definition power_by_mul (u : float) (n : nat) : float :=
  Nat.iter n (PrimFloat.mul u) 1%float.

End B64.

(** ** The mask update alone *)

Module Mask.

Import Field.

(** What one iteration of the loop of [compute_field] combines into the mask:
    for every sample point, whether [r > 0.22] for this charge. *)
Definition far_flags {F : Type} (A : arith F) (x y : list F) (c : F * F * F)
    : list bool :=
  let '(q, cx, cy) := c in
  let dx := (λ v, a_sub A v cx) <$> x in
  let dy := (λ v, a_sub A v cy) <$> y in
  let r :=
    zip_with
      (λ u v, a_add A (a_sqrt A (a_add A (a_pow A u 2) (a_pow A v 2)))
                (a_guard A)) dx dy in
  (λ v, a_gt A v (a_cutoff A)) <$> r.

End Mask.

(** ** The script as a whole *)

Module Session.

Import App.

(** The module-level variables as the script initialises them. *)
Definition initial : state := State [] true true false [].

(** The call of [plot_field] that displays the empty field before
    [plt.show()] starts the event loop. *)
Definition startup : state := plot_field initial.

(** An event the loop hands to one of the two connected handlers, with what
    the user will answer should the handler open a prompt. *)
Inductive event : Type :=
  | Click (e : mouse_event) (answer : option R)
  | Key (key : string) (typed : string).

Definition dispatch (ev : event) (st : state) : outcome :=
  match ev with
  | Click e answer => onclick e answer st
  | Key k typed => onkeypress k typed st
  end.

(** The event loop: an exception raised by a callback is reported and the
    loop goes on with the module-level variables as the handler left them. *)
Definition run (evs : list event) (st : state) : state :=
  foldl (λ s ev, final (dispatch ev s)) st evs.



End Session.

Import Num Field App.

(** * Properties of [compute_field] *)

Section sampler_facts.

Context {F : Type} (A : arith F).

Implicit Types (x y : list F) (c : F * F * F) (cs : list (F * F * F))
  (a : accum F).

Lemma init_at x y i px py :
  x !! i = Some px → y !! i = Some py →
  at_index i (init A x y) (a_zero A) (a_zero A) (a_zero A) true.
Proof.
  intros Hx Hy. unfold at_index, init, zeros_like, ones_like.
  cbn [Ex Ey V mask]. rewrite !list_lookup_fmap, Hx, Hy. done.
Qed.

Lemma body_at x y a c i px py ex ey v m :
  x !! i = Some px → y !! i = Some py →
  at_index i a ex ey v m →
  at_index i (body A x y a c)
    (a_add A ex (coulomb_Ex A px py c)) (a_add A ey (coulomb_Ey A px py c))
    (a_add A v (coulomb_V A px py c))
    (m && a_gt A (r_at A px py c) (a_cutoff A)).
Proof.
  intros Hx Hy (HEx & HEy & HV & Hm).
  destruct c as [[q cx] cy].
  unfold at_index, body, coulomb_Ex, coulomb_Ey, coulomb_V, r_at, dist,
    magnitude, pos_x, pos_y.
  cbn [Ex Ey V mask fst snd].
  rewrite !lookup_zip_with, !list_lookup_fmap, !lookup_zip_with,
    !list_lookup_fmap, Hx, Hy, HEx, HEy, HV, Hm.
  done.
Qed.

Lemma foldl_body_at x y cs : ∀ a i px py ex ey v m,
  x !! i = Some px → y !! i = Some py →
  at_index i a ex ey v m →
  at_index i (foldl (body A x y) a cs)
    (foldl (λ s c, a_add A s (coulomb_Ex A px py c)) ex cs)
    (foldl (λ s c, a_add A s (coulomb_Ey A px py c)) ey cs)
    (foldl (λ s c, a_add A s (coulomb_V A px py c)) v cs)
    (m && all_far A px py cs).
Proof.
  induction cs as [|c cs IH]; intros a i px py ex ey v m Hx Hy Ha.
  - unfold all_far; simpl. rewrite andb_true_r. exact Ha.
  - simpl foldl.
    pose proof (body_at x y a c i px py _ _ _ _ Hx Hy Ha) as Hc.
    pose proof (IH _ _ _ _ _ _ _ _ Hx Hy Hc) as H.
    unfold all_far in *; simpl forallb. rewrite andb_assoc. exact H.
Qed.

Lemma loop_at x y cs i px py :
  x !! i = Some px → y !! i = Some py →
  at_index i (loop A x y cs)
    (superpose A (coulomb_Ex A) px py cs) (superpose A (coulomb_Ey A) px py cs)
    (superpose A (coulomb_V A) px py cs) (all_far A px py cs).
Proof.
  intros Hx Hy.
  pose proof (init_at x y i px py Hx Hy) as H0.
  exact (foldl_body_at x y cs _ _ _ _ _ _ _ _ Hx Hy H0).
Qed.

Lemma all_far_spec px py cs :
  all_far A px py cs = true
  ↔ ∀ c, c ∈ cs → a_gt A (r_at A px py c) (a_cutoff A) = true.
Proof.
  unfold all_far. rewrite forallb_forall. split.
  - intros H c Hc. apply list_elem_of_In in Hc. by apply H.
  - intros H c Hc. apply H. by apply list_elem_of_In.
Qed.

Lemma valid_iff_all_far x y cs i px py :
  x !! i = Some px → y !! i = Some py →
  valid (out_Ex A x y cs) i ↔ all_far A px py cs = true.
Proof.
  intros Hx Hy.
  destruct (loop_at x y cs i px py Hx Hy) as (_ & _ & _ & Hm).
  unfold valid, out_Ex, compute_field, masked_where; cbn [fst snd masked].
  rewrite list_lookup_fmap, Hm; simpl.
  destruct (all_far A px py cs); split; intros H; (done || by inversion H).
Qed.


(** ** Superposition at every grid point *)

(** C1.  In every arithmetic and at every index of the grid, with
    [(px, py)] the sample point there, the three outputs of [compute_field]
    hold the sums over the charge list of the Coulomb contributions
    [q dx / r^3], [q dy / r^3] and [q / r], where
    [(dx, dy) = (px - cx, py - cy)] and [r = sqrt (dx^2 + dy^2) + 1e-20]. *)
Theorem compute_field_superposition x y cs (i : nat) (px py : F) :
  x !! i = Some px → y !! i = Some py →
  data (out_Ex A x y cs) !! i = Some (superpose A (coulomb_Ex A) px py cs) ∧
  data (out_Ey A x y cs) !! i = Some (superpose A (coulomb_Ey A) px py cs) ∧
  data (out_V A x y cs) !! i = Some (superpose A (coulomb_V A) px py cs).
Proof.
  intros Hx Hy.
  destruct (loop_at x y cs i px py Hx Hy) as (HEx & HEy & HV & _).
  unfold out_Ex, out_Ey, out_V, compute_field, masked_where; cbn [fst snd data].
  auto.
Qed.

(** ** No charges *)

Lemma fmap_const_replicate {B C : Type} (b : C) (l : list B) :
  (λ _, b) <$> l = replicate (length l) b.
Proof. induction l as [|? l IH]; simpl; [done|]. by rewrite <- IH. Qed.

(** C7.  With an empty charge list [compute_field] is defined on every grid
    and in every arithmetic, [Ex], [Ey] and [V] are zero at every grid point,
    and no point is masked. *)
Theorem compute_field_no_charges x y :
  data (out_Ex A x y []) = replicate (length x) (a_zero A) ∧
  data (out_Ey A x y []) = replicate (length y) (a_zero A) ∧
  data (out_V A x y []) = replicate (length x) (a_zero A) ∧
  masked (out_Ex A x y []) = replicate (length x) false ∧
  masked (out_Ey A x y []) = replicate (length x) false ∧
  masked (out_V A x y []) = replicate (length x) false.
Proof.
  unfold out_Ex, out_Ey, out_V, compute_field, masked_where, loop, init,
    zeros_like, ones_like.
  cbn [foldl fst snd data masked Ex Ey V mask].
  rewrite <- list_fmap_compose.
  rewrite !fmap_const_replicate.
  repeat split; apply (fmap_const_replicate false x).
Qed.

End sampler_facts.

(** * The sampler over the reals *)

Section exact_facts.

Implicit Types (x y : list R) (c : charge) (cs : list charge).

Lemma foldl_Rplus_Rsum (f : charge → R) cs : ∀ s,
  foldl (λ s c, s + f c) s cs = s + Rsum (f <$> cs).
Proof.
  induction cs as [|c cs IH]; intros s.
  - change (s = s + 0). lra.
  - change (foldl (λ s c, s + f c) (s + f c) cs
            = s + (f c + Rsum (f <$> cs))).
    rewrite IH. lra.
Qed.

(** Over the reals the contributions can be added in any grouping: the
    superposition is the plain sum of the list of contributions. *)
Lemma superpose_exact (f : R → R → charge → R) (px py : R) cs :
  superpose exact f px py cs = Rsum (f px py <$> cs).
Proof.
  pose proof (foldl_Rplus_Rsum (f px py) cs 0) as H.
  rewrite Rplus_0_l in H. exact H.
Qed.

Lemma Rsum_permutation (l l' : list R) : l ≡ₚ l' → Rsum l = Rsum l'.
Proof.
  induction 1 as [|a l l' _ IH|a b l|l1 l2 l3 _ IH1 _ IH2].
  - done.
  - change (a + Rsum l = a + Rsum l'). by rewrite IH.
  - change (b + (a + Rsum l) = a + (b + Rsum l)). lra.
  - by rewrite IH1.
Qed.

Lemma superpose_exact_permutation (f : R → R → charge → R) (px py : R)
    cs cs' :
  cs ≡ₚ cs' → superpose exact f px py cs = superpose exact f px py cs'.
Proof.
  intros Hp. rewrite !superpose_exact. apply Rsum_permutation.
  by apply fmap_Permutation.
Qed.

Lemma compute_field_superposition_example :
  ([2] : list R) !! 0%nat = Some 2 ∧ ([0] : list R) !! 0%nat = Some 0 ∧
  data (out_V exact [2] [0] [(1, 0, 0); (-1, 2, 3)]) !! 0%nat
    = Some (superpose exact (coulomb_V exact) 2 0 [(1, 0, 0); (-1, 2, 3)]).
Proof.
  split; [reflexivity|]. split; [reflexivity|].
  apply (compute_field_superposition exact [2] [0]
           [(1, 0, 0); (-1, 2, 3)] 0 2 0); reflexivity.
Defined.

(** Over the reals, then, each output is the sum of the list of
    contributions. *)
Lemma compute_field_exact_sums x y cs (i : nat) (px py : R) :
  x !! i = Some px → y !! i = Some py →
  data (out_Ex exact x y cs) !! i
    = Some (Rsum ((λ c, magnitude c * (px - pos_x c) / r_at exact px py c ^ 3)
                    <$> cs)) ∧
  data (out_Ey exact x y cs) !! i
    = Some (Rsum ((λ c, magnitude c * (py - pos_y c) / r_at exact px py c ^ 3)
                    <$> cs)) ∧
  data (out_V exact x y cs) !! i
    = Some (Rsum ((λ c, magnitude c / r_at exact px py c) <$> cs)) ∧
  ∀ c, r_at exact px py c
       = sqrt ((px - pos_x c) ^ 2 + (py - pos_y c) ^ 2) + 1e-20.
Proof.
  intros Hx Hy.
  destruct (loop_at exact x y cs i px py Hx Hy) as (HEx & HEy & HV & _).
  rewrite !superpose_exact in *.
  unfold out_Ex, out_Ey, out_V, compute_field, masked_where; cbn [fst snd data].
  auto.
Qed.

(** The same computation in double precision gives the potential
    [1/2 - 1/3] rounded as the program rounds it. *)
Example compute_field_binary64_runs :
  data (out_V (binary64 B64.power_by_mul) [2%float] [0%float]
          [(1, 0, 0); (-1, 2, 3)]%float)
  = [0.16666666666666669%float].
Proof. vm_compute. reflexivity. Qed.

(** ** Order of the charges *)

Lemma zip_with_Rplus_swap (e u v : list R) :
  zip_with Rplus (zip_with Rplus e u) v = zip_with Rplus (zip_with Rplus e v) u.
Proof.
  revert u v. induction e as [|a e IH]; intros [|b u] [|c v]; simpl; try done.
  f_equal; [lra | apply IH].
Qed.

Lemma zip_with_andb_swap (e u v : list bool) :
  zip_with andb (zip_with andb e u) v = zip_with andb (zip_with andb e v) u.
Proof.
  revert u v. induction e as [|a e IH]; intros [|b u] [|c v]; simpl; try done.
  f_equal; [by destruct a, b, c | apply IH].
Qed.

Lemma body_swap x y (a : accum R) (c1 c2 : charge) :
  body exact x y (body exact x y a c1) c2
  = body exact x y (body exact x y a c2) c1.
Proof.
  destruct c1 as [[q1 cx1] cy1], c2 as [[q2 cx2] cy2]. unfold body.
  cbn [Ex Ey V mask]. change (a_add exact) with Rplus. f_equal;
    first [apply zip_with_Rplus_swap | apply zip_with_andb_swap].
Qed.

Lemma foldl_body_permutation x y cs cs' :
  cs ≡ₚ cs' →
  ∀ a, foldl (body exact x y) a cs = foldl (body exact x y) a cs'.
Proof.
  induction 1 as [|c l l' _ IH|c1 c2 l|l1 l2 l3 _ IH1 _ IH2]; intros a; simpl.
  - done.
  - apply IH.
  - by rewrite body_swap.
  - by rewrite IH1, IH2.
Qed.

(** C8.  Over the reals, permuting the charge list changes nothing in the
    output of [compute_field]: the data and the masks of [Ex], [Ey] and [V]
    are the same arrays. *)
Theorem compute_field_permutation x y cs cs' :
  cs ≡ₚ cs' → compute_field exact x y cs = compute_field exact x y cs'.
Proof.
  intros Hp. unfold compute_field, loop.
  by rewrite (foldl_body_permutation x y cs cs' Hp).
Qed.

Lemma compute_field_permutation_example :
  [(1, 0, 0); (-1, 2, 0); (3, 1, 1)] ≡ₚ [(3, 1, 1); (1, 0, 0); (-1, 2, 0)] ∧
  compute_field exact [0.5; 4] [0.5; 0] [(1, 0, 0); (-1, 2, 0); (3, 1, 1)]
    = compute_field exact [0.5; 4] [0.5; 0] [(3, 1, 1); (1, 0, 0); (-1, 2, 0)].
Proof.
  assert (Hp : [(1, 0, 0); (-1, 2, 0); (3, 1, 1)]
                 ≡ₚ [(3, 1, 1); (1, 0, 0); (-1, 2, 0)]).
  { change ([(1, 0, 0); (-1, 2, 0)] ++ [(3, 1, 1)]
              ≡ₚ [(3, 1, 1)] ++ [(1, 0, 0); (-1, 2, 0)]).
    apply Permutation_app_comm. }
  split; [exact Hp|].
  exact (compute_field_permutation [0.5; 4] [0.5; 0] _ _ Hp).
Defined.

(** In double precision the order can show in the result: three charges at
    the origin, sampled at [(1, 0)], give the potential [0] in one order and
    [1] in another. *)
Example binary64_order_shows :
  data (out_V (binary64 B64.power_by_mul) [1%float] [0%float]
          [(1e16, 0, 0); (1, 0, 0); (-1e16, 0, 0)]%float) = [0%float] ∧
  data (out_V (binary64 B64.power_by_mul) [1%float] [0%float]
          [(1e16, 0, 0); (-1e16, 0, 0); (1, 0, 0)]%float) = [1%float].
Proof. split; vm_compute; reflexivity. Qed.

End exact_facts.

(** * The exclusion mask in double precision *)

(** ** Rounding an addition

    Addition of two doubles aligns the mantissas, adds them as integers and
    rounds the sum back to 53 bits by shifting right ([shr]) and looking at
    the bits shifted out.  Two facts are needed about it: a sum whose addend
    falls entirely below half a unit in the last place is the larger operand
    unchanged, and a small sum has a small exponent. *)

Section rounding.

#[local] Open Scope Z_scope.

(** *** Number of binary digits *)

Lemma digits2_size p : digits2_pos p = Pos.size p.
Proof. induction p; simpl; congruence. Qed.

Lemma digits2_bounds p :
  2 ^ (Zpos (digits2_pos p) - 1) <= Zpos p < 2 ^ Zpos (digits2_pos p).
Proof.
  rewrite digits2_size. split.
  - pose proof (Pos.size_le p) as H.
    assert (H' : 2 ^ Zpos (Pos.size p) <= 2 * Zpos p).
    { change 2 with (Zpos 2) at 1. rewrite <- Pos2Z.inj_pow. exact H. }
    replace (Zpos (Pos.size p)) with (Z.succ (Zpos (Pos.size p) - 1)) in H'
      by lia.
    rewrite Z.pow_succ_r in H' by lia. lia.
  - pose proof (Pos.size_gt p) as H.
    change 2 with (Zpos 2). rewrite <- Pos2Z.inj_pow. exact H.
Qed.

Lemma Zdigits2_le x d : 0 <= d -> 0 <= x < 2 ^ d -> Zdigits2 x <= d.
Proof.
  intros Hd [H0 Hx]. destruct x as [|p|p]; simpl; [lia| |lia].
  pose proof (digits2_bounds p) as [Hlo _].
  destruct (Z_le_gt_dec (Zpos (digits2_pos p)) d) as [|Hgt]; [done|].
  assert (2 ^ d <= 2 ^ (Zpos (digits2_pos p) - 1))
    by (apply Z.pow_le_mono_r; lia).
  lia.
Qed.

Lemma digits2_unique p d :
  2 ^ (d - 1) <= Zpos p < 2 ^ d -> Zpos (digits2_pos p) = d.
Proof.
  intros [Hlo Hhi]. pose proof (digits2_bounds p) as [Hlo' Hhi'].
  assert (0 < d).
  { destruct (Z_lt_le_dec 0 d) as [|Hd]; [done|].
    assert (2 ^ d <= 2 ^ 0) by (apply Z.pow_le_mono_r; lia). simpl in *. lia. }
  destruct (Z.lt_trichotomy (Zpos (digits2_pos p)) d) as [Hlt|[Heq|Hgt]];
    [|done|].
  - assert (2 ^ Zpos (digits2_pos p) <= 2 ^ (d - 1))
      by (apply Z.pow_le_mono_r; lia).
    lia.
  - assert (2 ^ d <= 2 ^ (Zpos (digits2_pos p) - 1))
      by (apply Z.pow_le_mono_r; lia).
    lia.
Qed.

(** *** Shifting right *)

Lemma shr_1_nonneg m r s :
  0 <= m -> shr_1 {| shr_m := m; shr_r := r; shr_s := s |}
            = {| shr_m := m / 2; shr_r := Z.odd m; shr_s := r || s |}.
Proof.
  intros Hm. rewrite <- Z.div2_div.
  destruct m as [|[p|p|]|p]; try lia; reflexivity.
Qed.

Lemma iter_pos_nat {A} (f : A -> A) p x :
  SpecFloat.iter_pos f p x = Nat.iter (Pos.to_nat p) f x.
Proof.
  revert x. induction p as [p IH|p IH|]; intros x; cbn [SpecFloat.iter_pos].
  - rewrite !IH, Pos2Nat.inj_xI. 
    replace (S (2 * Pos.to_nat p))%nat
      with (Pos.to_nat p + (Pos.to_nat p + 1))%nat by lia.
    rewrite !Nat.iter_add. reflexivity.
  - rewrite !IH, Pos2Nat.inj_xO.
    replace (2 * Pos.to_nat p)%nat
      with (Pos.to_nat p + Pos.to_nat p)%nat by lia.
    rewrite Nat.iter_add. reflexivity.
  - reflexivity.
Qed.

Lemma iter_shr_m n : forall rec, 0 <= shr_m rec ->
  shr_m (Nat.iter n shr_1 rec) = shr_m rec / 2 ^ Z.of_nat n.
Proof.
  induction n as [|n IH]; intros [m r s] Hm; simpl in Hm.
  - simpl. now rewrite Z.div_1_r.
  - rewrite Nat.iter_succ_r, shr_1_nonneg by done.
    rewrite IH; simpl.
    + rewrite Nat2Z.inj_succ, Z.pow_succ_r by lia.
      rewrite Z.div_div by lia. reflexivity.
    + apply Z.div_pos; lia.
Qed.

Lemma iter_shr_sticky n : forall rec, 0 <= shr_m rec ->
  shr_r (Nat.iter n shr_1 rec) || shr_s (Nat.iter n shr_1 rec)
  = shr_r rec || shr_s rec || negb (shr_m rec mod 2 ^ Z.of_nat n =? 0).
Proof.
  induction n as [|n IH]; intros [m r s] Hm; simpl in Hm.
  - simpl. rewrite Z.mod_1_r. simpl. now rewrite orb_false_r.
  - rewrite Nat.iter_succ_r, shr_1_nonneg by done.
    rewrite IH by (simpl; apply Z.div_pos; lia). simpl.
    rewrite Nat2Z.inj_succ, Z.pow_succ_r by lia.
    rewrite Z.rem_mul_r by lia. rewrite Zmod_odd.
    assert (0 <= (m / 2) mod 2 ^ Z.of_nat n) by (apply Z.mod_pos_bound; lia).
    destruct (Z.odd m), r, s; simpl; try reflexivity;
      destruct (Z.eqb_spec ((m / 2) mod 2 ^ Z.of_nat n) 0) as [->|Hne];
      simpl; try reflexivity;
      destruct (Z.eqb_spec (0 + 2 * ((m / 2) mod 2 ^ Z.of_nat n)) 0); simpl;
      try reflexivity; lia.
Qed.

(** The part shifted out is below half a unit in the last place kept. *)
Lemma iter_shr_absorb n m t :
  0 <= m -> 0 < t < 2 ^ Z.of_nat n ->
  Nat.iter (S n) shr_1
    {| shr_m := m * 2 ^ Z.of_nat (S n) + t; shr_r := false; shr_s := false |}
  = {| shr_m := m; shr_r := false; shr_s := true |}.
Proof.
  intros Hm Ht.
  assert (Hpow : 0 < 2 ^ Z.of_nat n) by (apply Z.pow_pos_nonneg; lia).
  set (M := m * 2 ^ Z.of_nat (S n) + t).
  assert (HM : M = (2 * m) * 2 ^ Z.of_nat n + t).
  { unfold M. rewrite Nat2Z.inj_succ, Z.pow_succ_r by lia. ring. }
  assert (HM0 : 0 <= M) by nia.
  set (rec := {| shr_m := M; shr_r := false; shr_s := false |}).
  pose proof (iter_shr_m n rec HM0) as Hq.
  pose proof (iter_shr_sticky n rec HM0) as Hs.
  simpl in Hq, Hs.
  assert (Hdiv : M / 2 ^ Z.of_nat n = 2 * m).
  { rewrite HM. symmetry. apply Z.div_unique with t; lia. }
  assert (Hmod : M mod 2 ^ Z.of_nat n = t).
  { rewrite HM. symmetry. apply Z.mod_unique with (2 * m); lia. }
  rewrite Hdiv in Hq. rewrite Hmod in Hs.
  rewrite Nat.iter_succ.
  destruct (Nat.iter n shr_1 _) as [m' r' s']. simpl in Hq, Hs. subst m'.
  rewrite shr_1_nonneg by lia. f_equal.
  - symmetry. apply Z.div_unique with 0; lia.
  - rewrite Z.odd_mul. reflexivity.
  - rewrite Hs. destruct (Z.eqb_spec t 0); [lia|reflexivity].
Qed.

(** *** Exponent and mantissa after [shr_fexp] *)

Lemma fexp64 e : fexp prec emax e = Z.max (e - 53) (-1074).
Proof. reflexivity. Qed.

Lemma shr_shift rec e n :
  0 < n -> shr rec e n = (Nat.iter (Z.to_nat n) shr_1 rec, e + n).
Proof.
  intros Hn. destruct n as [|p|p]; try lia. unfold shr.
  rewrite iter_pos_nat. reflexivity.
Qed.

Lemma shr_noshift rec e n : n <= 0 -> shr rec e n = (rec, e).
Proof. intros Hn. destruct n as [|p|p]; try lia; reflexivity. Qed.

(** *** Aligning a mantissa to a smaller exponent *)

Lemma iter_xO_value n m : Zpos (Nat.iter n xO m) = Zpos m * 2 ^ Z.of_nat n.
Proof.
  induction n as [|n IH]; [simpl; lia|].
  rewrite Nat.iter_succ, Pos2Z.inj_xO, IH, Nat2Z.inj_succ, Z.pow_succ_r by lia.
  ring.
Qed.

Lemma pos_iter_nat {A} (f : A -> A) x p :
  Pos.iter f x p = Nat.iter (Pos.to_nat p) f x.
Proof. rewrite Pos2Nat.inj_iter. reflexivity. Qed.

Lemma shl_align_value m e e' :
  e' <= e ->
  shl_align m e e' = (Z.to_pos (Zpos m * 2 ^ (e - e')), e').
Proof.
  intros He. unfold shl_align.
  destruct (Z.sub e' e) as [|d|d] eqn:Hd; try lia.
  - replace (e - e') with 0 by lia. replace e' with e by lia.
    rewrite Z.mul_1_r. reflexivity.
  - f_equal. rewrite pos_iter_nat.
    rewrite <- (Pos2Z.id (Nat.iter (Pos.to_nat d) xO m)), iter_xO_value.
    do 3 f_equal. lia.
Qed.

Lemma shl_align_keep m e e' : e <= e' -> shl_align m e e' = (m, e).
Proof.
  intros He. unfold shl_align.
  destruct (Z.sub e' e) as [|d|d] eqn:Hd; try lia; reflexivity.
Qed.

Lemma fexp64_mono e1 e2 : e1 <= e2 -> fexp prec emax e1 <= fexp prec emax e2.
Proof. rewrite !fexp64. lia. Qed.

Lemma shr_fexp_exp m e l :
  snd (shr_fexp prec emax m e l) = Z.max e (fexp prec emax (Zdigits2 m + e)).
Proof.
  unfold shr_fexp.
  destruct (Z_lt_le_dec 0 (fexp prec emax (Zdigits2 m + e) - e)) as [Hn|Hn].
  - rewrite shr_shift by done. simpl. lia.
  - rewrite shr_noshift by done. simpl. lia.
Qed.

Lemma shr_record_of_loc_m m l : shr_m (shr_record_of_loc m l) = m.
Proof. destruct l as [|[]]; reflexivity. Qed.

Lemma shr_fexp_m m e l :
  0 <= m ->
  shr_m (fst (shr_fexp prec emax m e l))
  = m / 2 ^ Z.max 0 (fexp prec emax (Zdigits2 m + e) - e).
Proof.
  intros Hm. unfold shr_fexp.
  destruct (Z_lt_le_dec 0 (fexp prec emax (Zdigits2 m + e) - e)) as [Hn|Hn].
  - rewrite shr_shift by done. cbn [fst].
    rewrite iter_shr_m by (rewrite shr_record_of_loc_m; done).
    rewrite shr_record_of_loc_m, Z2Nat.id, Z.max_r by lia. reflexivity.
  - rewrite shr_noshift by done. cbn [fst].
    rewrite shr_record_of_loc_m, Z.max_l by lia. simpl. now rewrite Z.div_1_r.
Qed.

Lemma Zdigits2_nonneg x : 0 <= Zdigits2 x.
Proof. destruct x; simpl; lia. Qed.

Lemma Zdigits2_gt x : 0 <= x -> x < 2 ^ Zdigits2 x.
Proof.
  intros Hx. destruct x as [|p|p]; simpl; [lia| |lia].
  apply digits2_bounds.
Qed.

Lemma Zdigits2_div x n :
  0 <= x -> 0 <= n -> Zdigits2 (x / 2 ^ n) <= Z.max 0 (Zdigits2 x - n).
Proof.
  intros Hx Hn. pose proof (Zdigits2_gt x Hx) as Hlt.
  pose proof (Zdigits2_nonneg x) as Hd.
  assert (Hp : 0 < 2 ^ n) by (apply Z.pow_pos_nonneg; lia).
  destruct (Z_le_gt_dec n (Zdigits2 x)) as [Hle|Hgt].
  - rewrite Z.max_r by lia. apply Zdigits2_le; [lia|]. split.
    + apply Z.div_pos; lia.
    + apply Z.div_lt_upper_bound; [lia|].
      rewrite <- Z.pow_add_r by lia.
      now replace (n + (Zdigits2 x - n)) with (Zdigits2 x) by lia.
  - assert (2 ^ Zdigits2 x <= 2 ^ n) by (apply Z.pow_le_mono_r; lia).
    rewrite Z.div_small by lia. simpl. lia.
Qed.

Lemma Zdigits2_round m l :
  0 <= m -> 0 <= round_nearest_even m l /\
            Zdigits2 (round_nearest_even m l) <= Zdigits2 m + 1.
Proof.
  intros Hm. pose proof (Zdigits2_gt m Hm) as Hlt.
  pose proof (Zdigits2_nonneg m) as Hd.
  assert (Hpow : 2 ^ (Zdigits2 m + 1) = 2 * 2 ^ Zdigits2 m).
  { rewrite Z.pow_add_r by lia. simpl. lia. }
  assert (Hr : 0 <= round_nearest_even m l <= m + 1).
  { unfold round_nearest_even.
    destruct l as [|[]]; try destruct (Z.even m); lia. }
  split; [lia|]. apply Zdigits2_le; lia.
Qed.

(** *** A small number rounds to a small exponent *)

Lemma binary_round_aux_below sx mx ex l D b :
  0 <= mx -> Zdigits2 mx + ex <= D -> ex <= b ->
  fexp prec emax (D + 1) <= b -> b <= 971 ->
  B64.below b (binary_round_aux prec emax sx mx ex l).
Proof.
  intros Hmx HD Hex Hf Hb. unfold binary_round_aux.
  pose proof (shr_fexp_exp mx ex l) as He1.
  pose proof (shr_fexp_m mx ex l Hmx) as Hm1.
  destruct (shr_fexp prec emax mx ex l) as [mrs1 e1]. cbn [fst snd] in He1, Hm1.
  set (n1 := Z.max 0 (fexp prec emax (Zdigits2 mx + ex) - ex)) in *.
  assert (Hm1' : 0 <= shr_m mrs1).
  { rewrite Hm1. apply Z.div_pos; [lia|]. apply Z.pow_pos_nonneg; lia. }
  assert (Hd1 : Zdigits2 (shr_m mrs1) <= Z.max 0 (Zdigits2 mx - n1)).
  { rewrite Hm1. apply Zdigits2_div; lia. }
  destruct (Zdigits2_round (shr_m mrs1) (loc_of_shr_record mrs1) Hm1')
    as [Hr0 Hdr].
  set (mr := round_nearest_even (shr_m mrs1) (loc_of_shr_record mrs1)) in *.
  pose proof (shr_fexp_exp mr e1 loc_Exact) as He2.
  pose proof (shr_fexp_m mr e1 loc_Exact Hr0) as Hm2.
  destruct (shr_fexp prec emax mr e1 loc_Exact) as [mrs2 e2].
  cbn [fst snd] in He2, Hm2.
  assert (Hfx : fexp prec emax (Zdigits2 mx + ex) <= b).
  { etransitivity; [apply fexp64_mono|exact Hf]. lia. }
  assert (He1b : e1 <= b) by lia.
  assert (He2b : e2 <= b).
  { rewrite He2. apply Z.max_lub; [done|].
    assert (Hstep : Zdigits2 mr + e1 <= Z.max (D + 1) (e1 + 1)) by lia.
    etransitivity; [apply fexp64_mono, Hstep|].
    rewrite fexp64 in *. lia. }
  destruct (shr_m mrs2) as [|p|p]; simpl; [done| |done].
  destruct (Z.leb_spec e2 (emax - prec)) as [|Hgt]; simpl; [done|].
  change (emax - prec) with 971 in Hgt. lia.
Qed.

Lemma binary_round_below sx mx ex D b :
  Zpos (digits2_pos mx) + ex <= D -> ex <= b ->
  fexp prec emax (D + 1) <= b -> b <= 971 ->
  B64.below b (binary_round prec emax sx mx ex).
Proof.
  intros HD Hex Hf Hb. unfold binary_round.
  set (f := fexp prec emax (Zpos (digits2_pos mx) + ex)).
  destruct (Z_le_gt_dec f ex) as [Hle|Hgt].
  - rewrite shl_align_value by done.
    assert (Hp : 0 < 2 ^ (ex - f)) by (apply Z.pow_pos_nonneg; lia).
    apply binary_round_aux_below with D; try done; try lia.
    rewrite Z2Pos.id by lia.
    assert (Zdigits2 (Zpos mx * 2 ^ (ex - f))
            <= Zpos (digits2_pos mx) + (ex - f)); [|lia].
    apply Zdigits2_le; [lia|]. split; [lia|].
    rewrite Z.pow_add_r by lia.
    pose proof (digits2_bounds mx) as [_ Hhi]. nia.
  - rewrite shl_align_keep by lia.
    apply binary_round_aux_below with D; try done.
Qed.

(** *** An addend below half a unit in the last place is absorbed *)

Lemma binary_round_absorb sx (m M : positive) (k t ez : Z) :
  Zpos (digits2_pos m) = 53 -> 2 <= k -> 0 < t < 2 ^ (k - 1) ->
  Zpos M = Zpos m * 2 ^ k + t -> -1074 <= ez + k <= 971 ->
  binary_round prec emax sx M ez = S754_finite sx m (ez + k).
Proof.
  intros Hdm Hk Ht HM He.
  pose proof (digits2_bounds m) as [Hlo Hhi]. rewrite Hdm in Hlo, Hhi.
  assert (Hk1 : 2 ^ k = 2 * 2 ^ (k - 1)).
  { rewrite <- Z.pow_succ_r by lia. f_equal. lia. }
  assert (Hpk : 0 < 2 ^ (k - 1)) by (apply Z.pow_pos_nonneg; lia).
  assert (HdM : Zpos (digits2_pos M) = 53 + k).
  { apply digits2_unique. rewrite HM.
    replace (53 + k - 1) with (52 + k) by lia.
    rewrite !Z.pow_add_r by lia. simpl Z.sub in Hlo. nia. }
  unfold binary_round. rewrite HdM, fexp64, Z.max_l by lia.
  rewrite shl_align_keep by lia.
  unfold binary_round_aux, shr_fexp. cbn [Zdigits2].
  rewrite HdM, fexp64, Z.max_l by lia.
  replace (53 + k + ez - 53 - ez) with k by lia.
  rewrite shr_shift by lia. cbn [shr_record_of_loc].
  assert (Hit : Nat.iter (Z.to_nat k) shr_1
                  {| shr_m := Zpos M; shr_r := false; shr_s := false |}
                = {| shr_m := Zpos m; shr_r := false; shr_s := true |}).
  { replace (Z.to_nat k) with (S (Z.to_nat (k - 1))) by lia.
    rewrite HM.
    replace (2 ^ k) with (2 ^ Z.of_nat (S (Z.to_nat (k - 1))))
      by (f_equal; lia).
    apply iter_shr_absorb; rewrite ?Z2Nat.id; lia. }
  rewrite Hit.
  cbn [loc_of_shr_record shr_m round_nearest_even Zdigits2].
  rewrite Hdm, fexp64, Z.max_l by lia.
  rewrite shr_noshift by lia. cbn [shr_record_of_loc shr_m].
  replace (ez + k <=? emax - prec) with true.
  - f_equal.
  - symmetry. apply Z.leb_le. change (emax - prec) with 971. lia.
Qed.

(** *** Comparison with the cutoff *)

Lemma ltb_cutoff_below f : B64.below (-56) f -> SFltb B64.cutoff f = false.
Proof.
  destruct f as [s|s| |s m e]; simpl; try done.
  intros He. destruct s; [done|]. unfold SFltb, SFcompare, B64.cutoff.
  destruct (Z.compare_spec (-55) e); (lia || done).
Qed.

Lemma ltb_cutoff_negative_round M ez :
  SFltb B64.cutoff (binary_round prec emax true M ez) = false.
Proof.
  unfold binary_round, binary_round_aux.
  destruct (shl_align _ _ _) as [mz ez'].
  destruct (shr_fexp _ _ _ _ _) as [mrs1 e1].
  destruct (shr_fexp _ _ _ _ _) as [mrs2 e2].
  destruct (shr_m mrs2); try done.
  by destruct (Z.leb _ _).
Qed.

Lemma canonical_digits m e :
  canonical_mantissa prec emax m e = true ->
  Zpos (digits2_pos m) <= 53 /\ -1074 <= e /\
  (-1074 < e -> Zpos (digits2_pos m) = 53).
Proof.
  unfold canonical_mantissa. rewrite fexp64. intros H.
  apply Z.eqb_eq in H. lia.
Qed.

(** Adding the guard to any double does not move it across the cutoff. *)
Lemma guard_absorbed_sf s :
  valid_binary s = true ->
  SFltb B64.cutoff (SF64add s B64.guard) = SFltb B64.cutoff s.
Proof.
  intros Hv. destruct s as [sg|sg| |sg m e].
  - by destruct sg.
  - by destruct sg.
  - done.
  - simpl in Hv. unfold bounded in Hv. apply andb_true_iff in Hv as [Hc Hb].
    apply Z.leb_le in Hb. change (emax - prec) with 971 in Hb.
    destruct (canonical_digits m e Hc) as (Hd & Hemin & Hnorm).
    pose proof (digits2_bounds m) as [_ Hm].
    assert (Hm53 : Zpos m < 2 ^ 53).
    { eapply Z.lt_le_trans; [exact Hm|]. apply Z.pow_le_mono_r; lia. }
    unfold SF64add, SFadd, B64.guard.
    set (ez := Z.min e (-119)).
    rewrite (shl_align_value m e ez), (shl_align_value _ (-119) ez) by lia.
    cbn [fst].
    assert (Hpa : 0 < 2 ^ (e - ez)) by (apply Z.pow_pos_nonneg; lia).
    assert (Hpb : 0 < 2 ^ (-119 - ez)) by (apply Z.pow_pos_nonneg; lia).
    rewrite !Z2Pos.id by lia.
    set (a := Zpos m * 2 ^ (e - ez)).
    set (b := 6646139978924579 * 2 ^ (-119 - ez)).
    assert (Ha : 0 < a) by (unfold a; lia).
    assert (Hb0 : 0 < b) by (unfold b; lia).
    assert (Hbb : b < 2 ^ (-66 - ez)).
    { unfold b. replace (-66 - ez) with (53 + (-119 - ez)) by lia.
      rewrite Z.pow_add_r by lia. 
      assert (6646139978924579 < 2 ^ 53) by (vm_compute; reflexivity). nia. }
    destruct sg; cbn [cond_Zopp].
    + (* negative *)
      replace (SFltb B64.cutoff (S754_finite true m e)) with false
        by reflexivity.
      destruct (- a + b) as [|p|p] eqn:Hsum; cbn [binary_normalize].
      * reflexivity.
      * apply ltb_cutoff_below, binary_round_below with (-66); try lia.
        -- assert (Zdigits2 (Zpos p) <= -66 - ez); [|simpl in *; lia].
           apply Zdigits2_le; lia.
        -- rewrite fexp64. lia.
      * apply ltb_cutoff_negative_round.
    + (* positive *)
      destruct (Z_le_gt_dec e (-66)) as [Hsmall|Hbig].
      * replace (SFltb B64.cutoff (S754_finite false m e)) with false.
        2:{ unfold SFltb, SFcompare, B64.cutoff.
            destruct (Z.compare_spec (-55) e); (lia || done). }
        assert (Hab : a < 2 ^ (-13 - ez)).
        { unfold a. replace (-13 - ez) with (53 + (-66 - ez)) by lia.
          rewrite Z.pow_add_r by lia.
          assert (2 ^ (e - ez) <= 2 ^ (-66 - ez))
            by (apply Z.pow_le_mono_r; lia).
          nia. }
        assert (Hb2 : 2 ^ (-66 - ez) <= 2 ^ (-13 - ez))
          by (apply Z.pow_le_mono_r; lia).
        assert (H12 : 2 ^ (-12 - ez) = 2 * 2 ^ (-13 - ez)).
        { rewrite <- Z.pow_succ_r by lia. f_equal. lia. }
        destruct (a + b) as [|p|p] eqn:Hsum; try lia. cbn [binary_normalize].
        apply ltb_cutoff_below, binary_round_below with (-12); try lia.
        -- assert (Zdigits2 (Zpos p) <= -12 - ez); [|simpl in *; lia].
           apply Zdigits2_le; lia.
        -- rewrite fexp64. lia.
      * assert (Hez : ez = -119) by lia.
        assert (Hb1 : b = 6646139978924579).
        { unfold b. rewrite Hez. reflexivity. }
        destruct (a + b) as [|p|p] eqn:Hsum; try lia. cbn [binary_normalize].
        rewrite (binary_round_absorb false m p (e + 119) 6646139978924579 ez).
        -- do 2 f_equal. lia.
        -- apply Hnorm. lia.
        -- lia.
        -- split; [lia|].
           assert (2 ^ 53 <= 2 ^ (e + 119 - 1)) by (apply Z.pow_le_mono_r; lia).
           assert (6646139978924579 < 2 ^ 53) by (vm_compute; reflexivity). lia.
        -- rewrite <- Hsum, Hb1. unfold a. rewrite Hez.
           replace (e - -119) with (e + 119) by lia. reflexivity.
        -- lia.
Qed.

End rounding.

(** The same in terms of the primitive operations: for every double [d],
    [d + 1e-20 > 0.22] exactly when [d > 0.22]. *)
Lemma guard_absorbed (d : float) :
  PrimFloat.ltb 0.22 (PrimFloat.add d 1e-20) = PrimFloat.ltb 0.22 d.
Proof.
  rewrite !ltb_spec, add_spec.
  change (Prim2SF 0.22) with B64.cutoff. change (Prim2SF 1e-20) with B64.guard.
  apply guard_absorbed_sf, Prim2SF_valid.
Qed.



(** ** The mask *)

Section binary64_mask.

Variable npy_power : float → nat → float.

Implicit Types (x y : list float) (cs : list (float * float * float)).


End binary64_mask.


(** Running the program's arithmetic: with a charge at the origin, the grid
    point [(0.22, 0)], at distance [0.22], is masked, and the point
    [(0.23, 0)] is not. *)
Example mask_binary64_at_cutoff :
  masked (out_V (binary64 B64.power_by_mul) [0.22; 0.23]%float [0; 0]%float
            [(1, 0, 0)%float])
  = [true; false].
Proof. vm_compute. reflexivity. Qed.

(** ** The mask over the reals *)

Section exact_mask.

Implicit Types (x y : list R) (c : charge) (cs : list charge).

Lemma dist_on_axis (d q : R) : 0 <= d → dist exact d 0 (q, 0, 0) = d.
Proof.
  intros Hd. unfold dist, pos_x, pos_y; simpl.
  replace ((d - 0) * ((d - 0) * 1) + (0 - 0) * ((0 - 0) * 1)) with (d * d)
    by lra.
  by apply sqrt_square.
Qed.

Lemma dist_nonneg (px py : R) c : 0 <= dist exact px py c.
Proof. apply sqrt_pos. Qed.

(** The regularised distance is never zero, so no division of the loop is a
    division by zero. *)
Lemma r_at_pos (px py : R) c : 0 < r_at exact px py c.
Proof.
  unfold r_at. change (0 < dist exact px py c + 1e-20).
  pose proof (dist_nonneg px py c). lra.
Qed.

(** Over the reals the comparison is between [sqrt (dx^2 + dy^2) + 1e-20]
    and [0.22]: every point farther than [0.22] from every charge is valid,
    and a valid point is farther than [0.22 - 1e-20] from every charge.  The
    band of width [1e-20] in between is below the resolution of doubles near
    [0.22], which is why the claim about the cutoff is settled in double
    precision above. *)
Lemma mask_exact x y cs (i : nat) (px py : R) :
  x !! i = Some px → y !! i = Some py →
  (valid (out_Ex exact x y cs) i
   ↔ ∀ c, c ∈ cs → dist exact px py c + 1e-20 > 0.22) ∧
  ((∀ c, c ∈ cs → dist exact px py c > 0.22) → valid (out_Ex exact x y cs) i) ∧
  (valid (out_Ex exact x y cs) i →
   ∀ c, c ∈ cs → dist exact px py c > 0.22 - 1e-20).
Proof.
  intros Hx Hy.
  assert (Hiff : valid (out_Ex exact x y cs) i
                 ↔ ∀ c, c ∈ cs → dist exact px py c + 1e-20 > 0.22).
  { rewrite (valid_iff_all_far _ x y cs i px py Hx Hy), all_far_spec.
    split; intros H c Hc; specialize (H c Hc).
    - by apply bool_decide_eq_true in H.
    - by apply bool_decide_eq_true. }
  split; [exact Hiff|]. destruct Hiff as [H1 H2]. split.
  - intros Hfar. apply H2. intros c Hc. specialize (Hfar c Hc). lra.
  - intros Hv c Hc. specialize (H1 Hv c Hc). lra.
Qed.

End exact_mask.

(** * Properties of the event handlers *)

Section handlers.

Implicit Types (st : state) (event : mouse_event) (cs : list charge)
  (answer : option R).

(** ** The loop of [onclick] *)

Lemma near_dist event c :
  near event c ↔ dist exact (xdata event) (ydata event) c < 0.3.
Proof. reflexivity. Qed.


Lemma scan_first_near event cs :
  button event = 3%Z →
  ∀ k i, first_near event cs i → scan event k cs = Delete (k + i).
Proof.
  intros Hb. induction cs as [|c cs IH]; intros k i [(d & Hd & Hdn) Hmin].
  - by rewrite lookup_nil in Hd.
  - destruct i as [|i]; simpl in Hd; simpl scan.
    + inversion Hd; subst d.
      rewrite (bool_decide_eq_true_2 _ Hdn), (bool_decide_eq_true_2 _ Hb).
      f_equal. lia.
    + assert (Hc : ¬ near event c) by (apply (Hmin 0%nat c); [lia | done]).
      unfold near in Hc. rewrite (bool_decide_eq_false_2 _ Hc).
      rewrite (IH (S k) i); [f_equal; lia|].
      split; [by exists d|]. intros j e Hj He. apply (Hmin (S j) e); [lia|done].
Qed.

(** When neither [return] branch of the loop can fire, the loop runs to the
    end of the list. *)
Lemma scan_falls_through event :
  button event ≠ 3%Z →
  (button event = 1%Z → key event ≠ Some "shift"%string) →
  ∀ k cs, scan event k cs = FallThrough.
Proof.
  intros H3 Hshift k cs. revert k.
  induction cs as [|c cs IH]; intros k; simpl; [done|].
  rewrite (bool_decide_eq_false_2 _ H3).
  assert (bool_decide (button event = 1%Z)
          && bool_decide (key event = Some "shift"%string) = false) as ->.
  { apply andb_false_iff.
    destruct (decide (button event = 1%Z)) as [H1|H1].
    - right. by apply bool_decide_eq_false_2, Hshift.
    - left. by apply bool_decide_eq_false_2. }
  rewrite IH. by destruct (bool_decide _).
Qed.

(** ** Clicks that are ignored *)

(** C10.  A button-press event outside the axes, or with a button that is
    neither 1 nor 3, leaves the whole state as it was: the charge list is
    unchanged and the trace gains no redraw. *)
Theorem onclick_ignored st event answer :
  inaxes event = false ∨ (button event ≠ 1%Z ∧ button event ≠ 3%Z) →
  onclick event answer st = Returned st.
Proof.
  intros [Hout|[H1 H3]]; unfold onclick.
  - by rewrite Hout.
  - destruct (inaxes event); [|done].
    rewrite scan_falls_through by done.
    by rewrite (bool_decide_eq_false_2 _ H1), (bool_decide_eq_false_2 _ H3).
Qed.

Lemma onclick_ignored_example :
  let st := State [(1, 0, 0)] true true false [] in
  let event := MouseEvent true 2 None 0.1 0 in
  (inaxes event = false ∨ (button event ≠ 1%Z ∧ button event ≠ 3%Z)) ∧
  onclick event None st = Returned st.
Proof.
  intros st event.
  assert (H : inaxes event = false
               ∨ (button event ≠ 1%Z ∧ button event ≠ 3%Z))
    by (right; split; discriminate).
  split; [exact H|]. exact (onclick_ignored st event None H).
Defined.

(** ** Secondary click on a charge *)


Lemma near_same_point (q x y : R) (event : mouse_event) :
  xdata event = x → ydata event = y → near event (q, x, y).
Proof.
  intros Hx Hy. unfold near, hypot, pos_x, pos_y; simpl. rewrite Hx, Hy.
  replace ((x - x) * ((x - x) * 1) + (y - y) * ((y - y) * 1)) with 0 by lra.
  rewrite sqrt_0. lra.
Qed.

Lemma near_on_axis (q d : R) (event : mouse_event) :
  xdata event = d → ydata event = 0 → 0 <= d < 0.3 → near event (q, 0, 0).
Proof.
  intros Hx Hy Hd. apply near_dist. rewrite Hx, Hy, dist_on_axis; lra.
Qed.


(** The charge removed is the first one in range, not the nearest: with a
    charge at distance [0.1] stored before one at distance [0], the click
    removes the former. *)
Example secondary_click_takes_lowest_index :
  let st := State [(1, 5, 5); (-1, 0, 0); (1, 0.1, 0)] true true false [] in
  let event := MouseEvent true 3 None 0.1 0 in
  charges (final (onclick event None st)) = [(1, 5, 5); (1, 0.1, 0)].
Proof.
  intros st event. unfold onclick; cbn [inaxes event].
  rewrite (scan_first_near event (charges st) eq_refl 0 1); [done|].
  split.
  - exists (-1, 0, 0). split; [done|]. by apply (near_on_axis _ 0.1); [..|lra].
  - intros [|[|j]] c' Hj Hc'; [|lia..]. inversion Hc'; subst c'.
    unfold near, hypot, pos_x, pos_y; simpl. intros Hlt.
    assert (Hsq : 0 <= sqrt ((0.1 - 5) * ((0.1 - 5) * 1)
                             + (0 - 5) * ((0 - 5) * 1))) by apply sqrt_pos.
    apply Rsqr_incrst_1 in Hlt; [|done|lra].
    unfold Rsqr in Hlt. rewrite sqrt_sqrt in Hlt; lra.
Qed.

(** ** Primary click on a charge, no modifier *)




(** ** Editing a magnitude *)

(** C9.  For a valid index the magnitude edit is all or nothing: when the
    prompt is cancelled the charge list is unchanged; when a number is
    confirmed the charge at that index gets the new magnitude and keeps its
    position, and every other charge is unchanged. *)
Theorem modify_charge_all_or_nothing st (index : nat) (c : charge) :
  charges st !! index = Some c →
  (∃ st', modify_charge_dialog index None st = Returned st' ∧
          charges st' = charges st) ∧
  (∀ new_q : R, ∃ st',
     modify_charge_dialog index (Some new_q) st = Returned st' ∧
     charges st' !! index = Some (new_q, pos_x c, pos_y c) ∧
     (∀ j, j ≠ index → charges st' !! j = charges st !! j) ∧
     length (charges st') = length (charges st)).
Proof.
  intros Hc. unfold modify_charge_dialog. rewrite Hc. split.
  - by eexists.
  - intros new_q. eexists. split; [reflexivity|]. simpl.
    split; [|split].
    + apply list_lookup_insert_eq. by eapply lookup_lt_Some.
    + intros j Hj. by apply list_lookup_insert_ne.
    + apply length_insert.
Qed.

Lemma modify_charge_all_or_nothing_example :
  let st := State [(1, 0, 0); (-1, 2, 0)] true true false [] in
  charges st !! 1%nat = Some (-1, 2, 0) ∧
  (∃ st', modify_charge_dialog 1 None st = Returned st' ∧
          charges st' = charges st) ∧
  (∀ new_q : R, ∃ st',
     modify_charge_dialog 1 (Some new_q) st = Returned st' ∧
     charges st' !! 1%nat = Some (new_q, 2, 0) ∧
     (∀ j, j ≠ 1%nat → charges st' !! j = charges st !! j) ∧
     length (charges st') = length (charges st)).
Proof.
  intros st. split; [reflexivity|].
  exact (modify_charge_all_or_nothing st 1 (-1, 2, 0) eq_refl).
Defined.

(** ** Key ["s"] *)

Lemma field_save_unbound st : module_globals st !! "field_save"%string = None.
Proof. unfold module_globals. vm_compute. reflexivity. Qed.

(** C4.  What the handler does on key ["s"], in every state and whatever is
    typed at the prompt: it prompts, then raises [NameError] for the name
    [field_save] before [savefig] is called and before the redraw.  Nothing
    is written, the charge list and the flags are unchanged. *)
Theorem onkeypress_s_raises st (typed : string) :
  onkeypress "s" typed st
    = Raised (NameError "field_save") (emit (Input "Save as?") st) ∧
  trace (final (onkeypress "s" typed st)) = trace st ++ [Input "Save as?"] ∧
  charges (final (onkeypress "s" typed st)) = charges st ∧
  show_field_lines (final (onkeypress "s" typed st)) = show_field_lines st ∧
  show_equipotential_lines (final (onkeypress "s" typed st))
    = show_equipotential_lines st ∧
  show_equipotential_map (final (onkeypress "s" typed st))
    = show_equipotential_map st.
Proof.
  assert (H : onkeypress "s" typed st
              = Raised (NameError "field_save") (emit (Input "Save as?") st)).
  { unfold onkeypress.
    rewrite !bool_decide_eq_false_2 by discriminate.
    rewrite bool_decide_eq_true_2 by reflexivity.
    cbv zeta. by rewrite field_save_unbound. }
  rewrite H. by repeat split.
Qed.

(** ** Walk-through

    From an empty list a primary click at the origin leaves the one charge
    [(1, 0, 0)], and a secondary click at the same place removes it again. *)

Example add_then_remove :
  let st0 := State [] true true false [] in
  let st1 := final (onclick (MouseEvent true 1 None 0 0) None st0) in
  let st2 := final (onclick (MouseEvent true 3 None 0 0) None st1) in
  charges st1 = [(1, 0, 0)] ∧ charges st2 = [].
Proof.
  intros st0 st1 st2.
  assert (H1 : charges st1 = [(1, 0, 0)]) by reflexivity.
  split; [exact H1|].
  unfold st2, onclick; cbn [inaxes]. rewrite H1.
  rewrite (scan_first_near (MouseEvent true 3 None 0 0) [(1, 0, 0)]
             eq_refl 0 0); [reflexivity|].
  split; [|intros j ? Hj; lia].
  exists (1, 0, 0). split; [done|]. by apply near_same_point.
Qed.

(** Key ["3"] pressed twice leaves the three flags as they were; key ["c"]
    empties the charge list. *)
Example toggle_twice st (typed typed' : string) :
  let st' := final (onkeypress "3" typed st) in
  let st'' := final (onkeypress "3" typed' st') in
  show_equipotential_map st' = negb (show_equipotential_map st) ∧
  show_equipotential_map st'' = show_equipotential_map st ∧
  show_field_lines st'' = show_field_lines st ∧
  show_equipotential_lines st'' = show_equipotential_lines st ∧
  charges st'' = charges st.
Proof.
  simpl. rewrite negb_involutive. by repeat split.
Qed.

Example clear_empties st (typed : string) :
  charges (final (onkeypress "c" typed st)) = [].
Proof. reflexivity. Qed.

End handlers.

(** * Start points of the field lines *)

Section seeds.

Lemma int_of_nonneg (v : R) : 0 <= v → Num.int v = Zfloor v.
Proof. intros Hv. unfold Num.int. by destruct (decide (0 <= v)). Qed.

Lemma num_field_lines_floor (c : charge) :
  Num.int (Rabs (magnitude c) * 16) = Zfloor (16 * Rabs (magnitude c)).
Proof.
  rewrite int_of_nonneg, Rmult_comm; [done|].
  pose proof (Rabs_pos (magnitude c)). lra.
Qed.

Lemma start_points_from (cs : list charge) : ∀ acc,
  foldl (λ acc c, acc ++ seeds_of c) acc cs = acc ++ concat (seeds_of <$> cs).
Proof.
  induction cs as [|c cs IH]; intros acc; simpl.
  - by rewrite app_nil_r.
  - by rewrite IH, app_assoc.
Qed.

Lemma length_seeds_of (c : charge) :
  length (seeds_of c) = Z.to_nat (Zfloor (16 * Rabs (magnitude c))).
Proof.
  unfold seeds_of, Num.range. rewrite num_field_lines_floor.
  by rewrite length_fmap, length_seqZ.
Qed.


(** A charge of magnitude [1], as a primary click creates it, starts sixteen
    field lines. *)
Example unit_charge_sixteen_seeds (cx cy : R) :
  length (seeds_of (1, cx, cy)) = 16%nat.
Proof.
  rewrite length_seeds_of. unfold magnitude; simpl.
  rewrite Rabs_R1. replace (16 * 1) with (IZR 16) by lra.
  by rewrite ZfloorZ.
Qed.

End seeds.

(** * Further properties of [compute_field] *)

Section mask_facts.

Context {F : Type} (A : arith F).

Implicit Types (x y : list F) (c : F * F * F) (cs : list (F * F * F))
  (a : accum F) (m : list bool).

Lemma mask_body x y a c :
  mask (body A x y a c) = zip_with andb (mask a) (Mask.far_flags A x y c).
Proof. by destruct c as [[q cx] cy]. Qed.

Lemma mask_foldl x y cs : ∀ a,
  mask (foldl (body A x y) a cs)
  = foldl (λ m c, zip_with andb m (Mask.far_flags A x y c)) (mask a) cs.
Proof.
  induction cs as [|c cs IH]; intros a; simpl; [done|].
  by rewrite IH, mask_body.
Qed.

Lemma foldl_andb_lookup {B : Type} (g : B → list bool) (l : list B) (i : nat) :
  ∀ m,
  foldl (λ acc b, zip_with andb acc (g b)) m l !! i = Some true
  ↔ m !! i = Some true ∧ Forall (λ b, g b !! i = Some true) l.
Proof.
  induction l as [|b l IH]; intros m; simpl.
  - split; [intros H; by split | by intros [H _]].
  - rewrite IH, Forall_cons, lookup_zip_with_Some. split.
    + intros [(u & v & Huv & Hu & Hv) Hall].
      symmetry in Huv. apply andb_true_iff in Huv as [-> ->]. done.
    + intros (Hm & Hb & Hall). split; [|done]. by exists true, true.
Qed.

(** A point is valid exactly when it is a point of the grid and every charge
    of the list flags it as far. *)
Lemma valid_flags x y cs (i : nat) :
  valid (out_Ex A x y cs) i
  ↔ (i < length x)%nat
    ∧ Forall (λ c, Mask.far_flags A x y c !! i = Some true) cs.
Proof.
  unfold valid, out_Ex, compute_field, masked_where, loop.
  cbn [fst snd masked]. rewrite list_lookup_fmap, mask_foldl.
  assert (Hones : mask (init A x y) !! i = Some true ↔ (i < length x)%nat).
  { unfold init, ones_like; cbn [mask]. rewrite list_lookup_fmap.
    destruct (x !! i) eqn:Hx; simpl.
    - apply lookup_lt_Some in Hx. by split.
    - apply lookup_ge_None in Hx. split; [done | lia]. }
  rewrite <- Hones, <- foldl_andb_lookup.
  destruct (foldl _ _ _ !! i) as [[]|]; simpl; split; intros H;
    by inversion H.
Qed.

(** The mask only shrinks the valid set: a point that is valid with some
    charge in the list is valid without it, so adding a charge never makes a
    masked point valid again and deleting one never masks a point. *)
Theorem valid_without_a_charge x y cs1 c cs2 (i : nat) :
  valid (out_Ex A x y (cs1 ++ c :: cs2)) i →
  valid (out_Ex A x y (cs1 ++ cs2)) i.
Proof.
  rewrite !valid_flags, !Forall_app, Forall_cons. tauto.
Qed.

(** In every arithmetic the mask does not depend on the order of the
    charges, although the sums may. *)
Theorem mask_permutation x y cs cs' :
  cs ≡ₚ cs' →
  masked (out_Ex A x y cs) = masked (out_Ex A x y cs') ∧
  masked (out_Ey A x y cs) = masked (out_Ey A x y cs') ∧
  masked (out_V A x y cs) = masked (out_V A x y cs').
Proof.
  intros Hp.
  assert (H : ∀ m,
    foldl (λ m c, zip_with andb m (Mask.far_flags A x y c)) m cs
    = foldl (λ m c, zip_with andb m (Mask.far_flags A x y c)) m cs').
  { induction Hp as [|c l l' _ IH|c1 c2 l|l1 l2 l3 _ IH1 _ IH2]; intros m;
      simpl.
    - done.
    - apply IH.
    - by rewrite zip_with_andb_swap.
    - by rewrite IH1, IH2. }
  assert (Hm : masked (out_Ex A x y cs) = masked (out_Ex A x y cs')).
  { unfold out_Ex, compute_field, masked_where, loop. cbn [fst snd masked].
    by rewrite !mask_foldl, H. }
  repeat split; exact Hm.
Qed.

Lemma body_lengths x y a c (n : nat) :
  length x = n → length y = n →
  length (Ex a) = n → length (Ey a) = n → length (V a) = n →
  length (mask a) = n →
  length (Ex (body A x y a c)) = n ∧ length (Ey (body A x y a c)) = n ∧
  length (V (body A x y a c)) = n ∧ length (mask (body A x y a c)) = n.
Proof.
  intros Hx Hy HEx HEy HV Hm. destruct c as [[q cx] cy].
  unfold body; cbn [Ex Ey V mask].
  rewrite !length_zip_with, !length_fmap, !length_zip_with, !length_fmap.
  lia.
Qed.

Lemma foldl_body_lengths x y cs (n : nat) : ∀ a,
  length x = n → length y = n →
  length (Ex a) = n → length (Ey a) = n → length (V a) = n →
  length (mask a) = n →
  length (Ex (foldl (body A x y) a cs)) = n ∧
  length (Ey (foldl (body A x y) a cs)) = n ∧
  length (V (foldl (body A x y) a cs)) = n ∧
  length (mask (foldl (body A x y) a cs)) = n.
Proof.
  induction cs as [|c cs IH]; intros a Hx Hy HEx HEy HV Hm; simpl; [done|].
  destruct (body_lengths x y a c n Hx Hy HEx HEy HV Hm) as (H1 & H2 & H3 & H4).
  by apply IH.
Qed.

(** On coordinate arrays of one shape the three outputs and their masks have
    that shape, whatever the charges. *)
Theorem compute_field_shape x y cs :
  length x = length y →
  length (data (out_Ex A x y cs)) = length x ∧
  length (data (out_Ey A x y cs)) = length x ∧
  length (data (out_V A x y cs)) = length x ∧
  length (masked (out_Ex A x y cs)) = length x ∧
  length (masked (out_Ey A x y cs)) = length x ∧
  length (masked (out_V A x y cs)) = length x.
Proof.
  intros Hxy.
  destruct (foldl_body_lengths x y cs (length x) (init A x y)) as
    (H1 & H2 & H3 & H4); unfold init, zeros_like, ones_like; cbn [Ex Ey V mask];
    rewrite ?length_fmap; try done.
  unfold out_Ex, out_Ey, out_V, compute_field, masked_where, loop.
  cbn [fst snd data masked]. rewrite length_fmap. done.
Qed.

End mask_facts.

Lemma valid_without_a_charge_example :
  let A := binary64 B64.power_by_mul in
  valid (out_Ex A [1%float] [0%float] ([] ++ (1, 0, 0)%float :: [])) 0 ∧
  valid (out_Ex A [1%float] [0%float] ([] ++ [])) 0.
Proof.
  intros A.
  assert (H : valid (out_Ex A [1%float] [0%float]
                       ([] ++ (1, 0, 0)%float :: [])) 0)
    by (vm_compute; reflexivity).
  split; [exact H|].
  exact (valid_without_a_charge A [1%float] [0%float] [] _ [] 0 H).
Defined.

Lemma mask_permutation_example :
  let A := binary64 B64.power_by_mul in
  [(1e16, 0, 0); (1, 0, 0)]%float ≡ₚ [(1, 0, 0); (1e16, 0, 0)]%float ∧
  masked (out_Ex A [1%float] [0%float] [(1e16, 0, 0); (1, 0, 0)]%float)
  = masked (out_Ex A [1%float] [0%float] [(1, 0, 0); (1e16, 0, 0)]%float).
Proof.
  intros A.
  assert (Hp : [(1e16, 0, 0); (1, 0, 0)]%float
                 ≡ₚ [(1, 0, 0); (1e16, 0, 0)]%float) by apply perm_swap.
  split; [exact Hp|].
  by apply (mask_permutation A [1%float] [0%float] _ _ Hp).
Defined.

Lemma compute_field_shape_example :
  length [0.5; 4] = length [0.5; 0] ∧
  length (data (out_V exact [0.5; 4] [0.5; 0] [(1, 0, 0)])) = length [0.5; 4].
Proof.
  split; [reflexivity|].
  by apply (compute_field_shape exact [0.5; 4] [0.5; 0] [(1, 0, 0)]).
Defined.

(** * Further properties of the sampler over the reals *)

Section exact_more.

Implicit Types (x y : list R) (c : charge) (cs : list charge).

Lemma Rsum_app (l1 l2 : list R) : Rsum (l1 ++ l2) = Rsum l1 + Rsum l2.
Proof.
  induction l1 as [|a l1 IH].
  - change (Rsum l2 = 0 + Rsum l2). lra.
  - change (a + Rsum (l1 ++ l2) = a + Rsum l1 + Rsum l2). rewrite IH. lra.
Qed.

Lemma Rsum_cons (a : R) (l : list R) : Rsum (a :: l) = a + Rsum l.
Proof. reflexivity. Qed.

(** The three data arrays at one grid point, as sums of the per-charge
    contributions. *)
Lemma exact_data_at x y cs (i : nat) (px py : R) :
  x !! i = Some px → y !! i = Some py →
  data (out_Ex exact x y cs) !! i
    = Some (Rsum (coulomb_Ex exact px py <$> cs)) ∧
  data (out_Ey exact x y cs) !! i
    = Some (Rsum (coulomb_Ey exact px py <$> cs)) ∧
  data (out_V exact x y cs) !! i
    = Some (Rsum (coulomb_V exact px py <$> cs)).
Proof.
  intros Hx Hy.
  destruct (loop_at exact x y cs i px py Hx Hy) as (HEx & HEy & HV & _).
  rewrite !superpose_exact in *.
  unfold out_Ex, out_Ey, out_V, compute_field, masked_where; cbn [fst snd data].
  auto.
Qed.

(** ** Superposition is additive *)

(** The field of two charge lists put together is, at every grid point, the
    sum of the fields of the two lists. *)
Theorem superposition_additive x y cs1 cs2 (i : nat) (px py : R) :
  x !! i = Some px → y !! i = Some py →
  ∃ ex1 ey1 v1 ex2 ey2 v2,
    data (out_Ex exact x y cs1) !! i = Some ex1 ∧
    data (out_Ey exact x y cs1) !! i = Some ey1 ∧
    data (out_V exact x y cs1) !! i = Some v1 ∧
    data (out_Ex exact x y cs2) !! i = Some ex2 ∧
    data (out_Ey exact x y cs2) !! i = Some ey2 ∧
    data (out_V exact x y cs2) !! i = Some v2 ∧
    data (out_Ex exact x y (cs1 ++ cs2)) !! i = Some (ex1 + ex2) ∧
    data (out_Ey exact x y (cs1 ++ cs2)) !! i = Some (ey1 + ey2) ∧
    data (out_V exact x y (cs1 ++ cs2)) !! i = Some (v1 + v2).
Proof.
  intros Hx Hy.
  destruct (exact_data_at x y cs1 i px py Hx Hy) as (A1 & B1 & C1).
  destruct (exact_data_at x y cs2 i px py Hx Hy) as (A2 & B2 & C2).
  destruct (exact_data_at x y (cs1 ++ cs2) i px py Hx Hy) as (A3 & B3 & C3).
  rewrite fmap_app, Rsum_app in A3, B3, C3.
  do 6 eexists. repeat split; eassumption.
Qed.

Lemma superposition_additive_example :
  ([2] : list R) !! 0%nat = Some 2 ∧ ([0] : list R) !! 0%nat = Some 0 ∧
  ∃ ex1 ey1 v1 ex2 ey2 v2,
    data (out_Ex exact [2] [0] [(1, 0, 0)]) !! 0%nat = Some ex1 ∧
    data (out_Ey exact [2] [0] [(1, 0, 0)]) !! 0%nat = Some ey1 ∧
    data (out_V exact [2] [0] [(1, 0, 0)]) !! 0%nat = Some v1 ∧
    data (out_Ex exact [2] [0] [(-1, 2, 3)]) !! 0%nat = Some ex2 ∧
    data (out_Ey exact [2] [0] [(-1, 2, 3)]) !! 0%nat = Some ey2 ∧
    data (out_V exact [2] [0] [(-1, 2, 3)]) !! 0%nat = Some v2 ∧
    data (out_Ex exact [2] [0] ([(1, 0, 0)] ++ [(-1, 2, 3)])) !! 0%nat
      = Some (ex1 + ex2) ∧
    data (out_Ey exact [2] [0] ([(1, 0, 0)] ++ [(-1, 2, 3)])) !! 0%nat
      = Some (ey1 + ey2) ∧
    data (out_V exact [2] [0] ([(1, 0, 0)] ++ [(-1, 2, 3)])) !! 0%nat
      = Some (v1 + v2).
Proof.
  split; [reflexivity|]. split; [reflexivity|].
  exact (superposition_additive [2] [0] [(1, 0, 0)] [(-1, 2, 3)] 0 2 0
           eq_refl eq_refl).
Defined.

(** ** Scaling the magnitudes *)

Lemma Rsum_scale (k : R) (f g : charge → R) cs :
  (∀ c, g c = k * f c) → Rsum (g <$> cs) = k * Rsum (f <$> cs).
Proof.
  intros Hg. induction cs as [|c cs IH].
  - change (0 = k * 0). lra.
  - change (g c + Rsum (g <$> cs) = k * (f c + Rsum (f <$> cs))).
    rewrite IH, Hg. lra.
Qed.

Lemma far_flags_position {F : Type} (A : arith F) (x y : list F)
    (q q' cx cy : F) :
  Mask.far_flags A x y (q, cx, cy) = Mask.far_flags A x y (q', cx, cy).
Proof. reflexivity. Qed.

(** Multiplying every magnitude by [k] multiplies [Ex], [Ey] and [V] by [k]
    at every grid point and leaves the mask as it is; with [k = -1], swapping
    the polarity of all charges flips the field and keeps the mask. *)
Theorem magnitudes_scale x y cs (k : R) (i : nat) (px py : R) :
  x !! i = Some px → y !! i = Some py →
  let scaled := (λ c, (k * magnitude c, pos_x c, pos_y c)) <$> cs in
  masked (out_Ex exact x y scaled) = masked (out_Ex exact x y cs) ∧
  ∃ ex ey v,
    data (out_Ex exact x y cs) !! i = Some ex ∧
    data (out_Ey exact x y cs) !! i = Some ey ∧
    data (out_V exact x y cs) !! i = Some v ∧
    data (out_Ex exact x y scaled) !! i = Some (k * ex) ∧
    data (out_Ey exact x y scaled) !! i = Some (k * ey) ∧
    data (out_V exact x y scaled) !! i = Some (k * v).
Proof.
  intros Hx Hy scaled. split.
  - unfold out_Ex, compute_field, masked_where, loop. cbn [fst snd masked].
    rewrite !mask_foldl. f_equal. generalize (mask (init exact x y)).
    unfold scaled. induction cs as [|[[q cx] cy] cs IH]; intros m; [done|].
    simpl. rewrite <- IH. reflexivity.
  - destruct (exact_data_at x y cs i px py Hx Hy) as (A1 & B1 & C1).
    destruct (exact_data_at x y scaled i px py Hx Hy) as (A2 & B2 & C2).
    unfold scaled in A2, B2, C2. rewrite <- list_fmap_compose in A2, B2, C2.
    rewrite (Rsum_scale k (coulomb_Ex exact px py)) in A2.
    2:{ intros [[q cx] cy]. unfold coulomb_Ex, r_at, dist, magnitude, pos_x,
          pos_y; simpl. unfold Rdiv. ring. }
    rewrite (Rsum_scale k (coulomb_Ey exact px py)) in B2.
    2:{ intros [[q cx] cy]. unfold coulomb_Ey, r_at, dist, magnitude, pos_x,
          pos_y; simpl. unfold Rdiv. ring. }
    rewrite (Rsum_scale k (coulomb_V exact px py)) in C2.
    2:{ intros [[q cx] cy]. unfold coulomb_V, r_at, dist, magnitude, pos_x,
          pos_y; simpl. unfold Rdiv. ring. }
    do 3 eexists. repeat split; eassumption.
Qed.

Lemma magnitudes_scale_example :
  ([2] : list R) !! 0%nat = Some 2 ∧ ([0] : list R) !! 0%nat = Some 0 ∧
  masked (out_Ex exact [2] [0]
            ((λ c, (-1 * magnitude c, pos_x c, pos_y c)) <$> [(1, 0, 0)]))
  = masked (out_Ex exact [2] [0] [(1, 0, 0)]).
Proof.
  split; [reflexivity|]. split; [reflexivity|].
  apply (magnitudes_scale [2] [0] [(1, 0, 0)] (-1) 0 2 0); reflexivity.
Defined.

(** ** Bounds at valid points *)

Lemma Rsum_abs_bound (k : R) (f : charge → R) cs :
  (∀ c, c ∈ cs → Rabs (f c) <= k * Rabs (magnitude c)) →
  Rabs (Rsum (f <$> cs)) <= k * Rsum ((λ c, Rabs (magnitude c)) <$> cs).
Proof.
  induction cs as [|c cs IH]; intros Hf.
  - change (Rabs 0 <= k * 0). rewrite Rabs_R0. lra.
  - change (Rabs (f c + Rsum (f <$> cs))
            <= k * (Rabs (magnitude c)
                    + Rsum ((λ c, Rabs (magnitude c)) <$> cs))).
    pose proof (Rabs_triang (f c) (Rsum (f <$> cs))) as Ht.
    pose proof (Hf c ltac:(apply list_elem_of_here)) as Hc.
    assert (Hrest : Rabs (Rsum (f <$> cs))
                    <= k * Rsum ((λ c, Rabs (magnitude c)) <$> cs)).
    { apply IH. intros c' Hc'. apply Hf. by apply list_elem_of_further. }
    lra.
Qed.

Lemma abs_le_dist (px py : R) c : Rabs (px - pos_x c) <= dist exact px py c.
Proof.
  change (Rabs (px - pos_x c)
          <= sqrt ((px - pos_x c) ^ 2 + (py - pos_y c) ^ 2)).
  generalize (px - pos_x c) (py - pos_y c). intros a b.
  rewrite <- sqrt_Rsqr_abs. apply sqrt_le_1_alt.
  unfold Rsqr. pose proof (pow2_ge_0 b). simpl in *. lra.
Qed.

Lemma abs_le_dist_y (px py : R) c : Rabs (py - pos_y c) <= dist exact px py c.
Proof.
  change (Rabs (py - pos_y c)
          <= sqrt ((px - pos_x c) ^ 2 + (py - pos_y c) ^ 2)).
  generalize (px - pos_x c) (py - pos_y c). intros a b.
  rewrite <- sqrt_Rsqr_abs. apply sqrt_le_1_alt.
  unfold Rsqr. pose proof (pow2_ge_0 a). simpl in *. lra.
Qed.

Lemma field_term_bound (q d r : R) :
  0.22 < r → Rabs d <= r → Rabs (q * d / r ^ 3) <= / 0.0484 * Rabs q.
Proof.
  intros Hr Hd.
  assert (Hr3 : 0 < r ^ 3) by (apply pow_lt; lra).
  unfold Rdiv. rewrite !Rabs_mult, (Rabs_right (/ r ^ 3)).
  2:{ apply Rle_ge, Rlt_le, Rinv_0_lt_compat, Hr3. }
  pose proof (Rabs_pos q) as Hq. pose proof (Rabs_pos d) as Hd0.
  apply (Rmult_le_reg_r (r ^ 3)); [exact Hr3|].
  replace (Rabs q * Rabs d * / r ^ 3 * r ^ 3) with (Rabs q * Rabs d)
    by (field; lra).
  assert (H3 : 0.0484 * Rabs d <= r ^ 3) by (simpl; nra).
  replace (/ 0.0484 * Rabs q * r ^ 3) with (Rabs q * (r ^ 3 / 0.0484))
    by (field; lra).
  apply Rmult_le_compat_l; [exact Hq|].
  apply (Rmult_le_reg_r 0.0484); [lra|].
  replace (r ^ 3 / 0.0484 * 0.0484) with (r ^ 3) by (field; lra). lra.
Qed.

Lemma potential_term_bound (q r : R) :
  0.22 < r → Rabs (q / r) <= / 0.22 * Rabs q.
Proof.
  intros Hr. unfold Rdiv. rewrite Rabs_mult, (Rabs_right (/ r)).
  2:{ apply Rle_ge, Rlt_le, Rinv_0_lt_compat. lra. }
  pose proof (Rabs_pos q) as Hq.
  rewrite Rmult_comm. apply Rmult_le_compat_r; [exact Hq|].
  apply Rinv_le_contravar; lra.
Qed.

(** The mask keeps the displayed values bounded: at a valid grid point the
    potential is at most the total magnitude of the charges divided by
    [0.22], and each field component at most that total divided by
    [0.22^2 = 0.0484], in absolute value. *)
Theorem valid_values_bounded x y cs (i : nat) (px py : R) :
  x !! i = Some px → y !! i = Some py →
  valid (out_V exact x y cs) i →
  ∃ ex ey v,
    data (out_Ex exact x y cs) !! i = Some ex ∧
    data (out_Ey exact x y cs) !! i = Some ey ∧
    data (out_V exact x y cs) !! i = Some v ∧
    Rabs v <= Rsum ((λ c, Rabs (magnitude c)) <$> cs) / 0.22 ∧
    Rabs ex <= Rsum ((λ c, Rabs (magnitude c)) <$> cs) / 0.0484 ∧
    Rabs ey <= Rsum ((λ c, Rabs (magnitude c)) <$> cs) / 0.0484.
Proof.
  intros Hx Hy Hv.
  destruct (exact_data_at x y cs i px py Hx Hy) as (A1 & B1 & C1).
  destruct (mask_exact x y cs i px py Hx Hy) as ((Hfar & _) & _).
  specialize (Hfar Hv).
  assert (Hr : ∀ c, c ∈ cs → 0.22 < r_at exact px py c).
  { intros c Hc. specialize (Hfar c Hc). exact Hfar. }
  do 3 eexists. split; [exact A1|]. split; [exact B1|]. split; [exact C1|].
  unfold Rdiv. rewrite !(Rmult_comm (Rsum _)). split; [|split].
  - apply Rsum_abs_bound. intros c Hc. apply potential_term_bound.
    by apply Hr.
  - apply Rsum_abs_bound. intros c Hc. apply field_term_bound; [by apply Hr|].
    apply Rle_trans with (dist exact px py c); [apply abs_le_dist|].
    change (dist exact px py c <= dist exact px py c + 1e-20). lra.
  - apply Rsum_abs_bound. intros c Hc. apply field_term_bound; [by apply Hr|].
    apply Rle_trans with (dist exact px py c); [apply abs_le_dist_y|].
    change (dist exact px py c <= dist exact px py c + 1e-20). lra.
Qed.

Lemma valid_values_bounded_example :
  ([1] : list R) !! 0%nat = Some 1 ∧ ([0] : list R) !! 0%nat = Some 0 ∧
  valid (out_V exact [1] [0] [(3, 0, 0)]) 0 ∧
  ∃ ex ey v,
    data (out_Ex exact [1] [0] [(3, 0, 0)]) !! 0%nat = Some ex ∧
    data (out_Ey exact [1] [0] [(3, 0, 0)]) !! 0%nat = Some ey ∧
    data (out_V exact [1] [0] [(3, 0, 0)]) !! 0%nat = Some v ∧
    Rabs v <= Rsum ((λ c, Rabs (magnitude c)) <$> [(3, 0, 0)]) / 0.22 ∧
    Rabs ex <= Rsum ((λ c, Rabs (magnitude c)) <$> [(3, 0, 0)]) / 0.0484 ∧
    Rabs ey <= Rsum ((λ c, Rabs (magnitude c)) <$> [(3, 0, 0)]) / 0.0484.
Proof.
  assert (Hv : valid (out_V exact [1] [0] [(3, 0, 0)]) 0).
  { apply (mask_exact [1] [0] [(3, 0, 0)] 0 1 0 eq_refl eq_refl).
    intros c Hc. apply list_elem_of_singleton in Hc. subst c.
    rewrite dist_on_axis; lra. }
  split; [reflexivity|]. split; [reflexivity|]. split; [exact Hv|].
  exact (valid_values_bounded [1] [0] [(3, 0, 0)] 0 1 0 eq_refl eq_refl Hv).
Defined.

(** ** A charge of magnitude zero *)

(** A charge of magnitude [0] adds nothing to [Ex], [Ey] and [V], yet it
    masks its neighbourhood like any other charge. *)
Theorem zero_magnitude_still_masks x y cs1 cs2 (cx cy : R) (i : nat)
    (px py : R) :
  x !! i = Some px → y !! i = Some py →
  data (out_Ex exact x y (cs1 ++ (0, cx, cy) :: cs2)) !! i
    = data (out_Ex exact x y (cs1 ++ cs2)) !! i ∧
  data (out_Ey exact x y (cs1 ++ (0, cx, cy) :: cs2)) !! i
    = data (out_Ey exact x y (cs1 ++ cs2)) !! i ∧
  data (out_V exact x y (cs1 ++ (0, cx, cy) :: cs2)) !! i
    = data (out_V exact x y (cs1 ++ cs2)) !! i ∧
  (valid (out_V exact x y (cs1 ++ (0, cx, cy) :: cs2)) i
   ↔ valid (out_V exact x y (cs1 ++ cs2)) i
     ∧ dist exact px py (0, cx, cy) + 1e-20 > 0.22).
Proof.
  intros Hx Hy.
  destruct (exact_data_at x y (cs1 ++ (0, cx, cy) :: cs2) i px py Hx Hy)
    as (A1 & B1 & C1).
  destruct (exact_data_at x y (cs1 ++ cs2) i px py Hx Hy) as (A2 & B2 & C2).
  rewrite fmap_app, Rsum_app, fmap_cons, Rsum_cons in A1, B1, C1.
  rewrite fmap_app, Rsum_app in A2, B2, C2.
  assert (HEx : coulomb_Ex exact px py (0, cx, cy) = 0).
  { unfold coulomb_Ex, magnitude; simpl. unfold Rdiv. ring. }
  assert (HEy : coulomb_Ey exact px py (0, cx, cy) = 0).
  { unfold coulomb_Ey, magnitude; simpl. unfold Rdiv. ring. }
  assert (HV : coulomb_V exact px py (0, cx, cy) = 0).
  { unfold coulomb_V, magnitude; simpl. unfold Rdiv. ring. }
  rewrite HEx in A1. rewrite HEy in B1. rewrite HV in C1.
  rewrite Rplus_0_l in A1, B1, C1.
  split; [by rewrite A1, A2|]. split; [by rewrite B1, B2|].
  split; [by rewrite C1, C2|].
  destruct (mask_exact x y (cs1 ++ (0, cx, cy) :: cs2) i px py Hx Hy)
    as (Hw & _).
  destruct (mask_exact x y (cs1 ++ cs2) i px py Hx Hy) as (Hwo & _).
  change (valid (out_Ex exact x y (cs1 ++ (0, cx, cy) :: cs2)) i
          ↔ valid (out_Ex exact x y (cs1 ++ cs2)) i
            ∧ dist exact px py (0, cx, cy) + 1e-20 > 0.22).
  rewrite Hw, Hwo. split.
  - intros H. split.
    + intros c Hc. apply H. apply elem_of_app in Hc as [Hc|Hc];
        apply elem_of_app; [by left | right; by apply list_elem_of_further].
    + apply H. apply elem_of_app. right. apply list_elem_of_here.
  - intros [H Hz] c Hc. apply elem_of_app in Hc as [Hc|Hc].
    + apply H, elem_of_app. by left.
    + apply elem_of_cons in Hc as [->|Hc]; [exact Hz|].
      apply H, elem_of_app. by right.
Qed.

Lemma zero_magnitude_still_masks_example :
  ([0.1] : list R) !! 0%nat = Some 0.1 ∧ ([0] : list R) !! 0%nat = Some 0 ∧
  (valid (out_V exact [0.1] [0] ([] ++ (0, 0, 0) :: [])) 0
   ↔ valid (out_V exact [0.1] [0] ([] ++ [])) 0
     ∧ dist exact 0.1 0 (0, 0, 0) + 1e-20 > 0.22).
Proof.
  split; [reflexivity|]. split; [reflexivity|].
  apply (zero_magnitude_still_masks [0.1] [0] [] [] 0 0 0 0.1 0); reflexivity.
Defined.

(** ** Moving grid and charges together *)

Lemma fmap_shift (t k : R) (l : list R) :
  (λ v, v - (k + t)) <$> ((λ v, v + t) <$> l) = (λ v, v - k) <$> l.
Proof.
  induction l as [|a l IH]; [done|]. cbn [fmap list_fmap].
  change (a + t - (k + t) :: ((λ v, v - (k + t)) <$> ((λ v, v + t) <$> l))
          = a - k :: ((λ v, v - k) <$> l)).
  rewrite IH. f_equal. lra.
Qed.

Lemma fmap_const_after {B C D : Type} (b : D) (f : B → C) (l : list B) :
  (λ _, b) <$> (f <$> l) = (λ _, b) <$> l.
Proof. by rewrite <- list_fmap_compose. Qed.

(** Shifting every sample point and every charge by the same vector changes
    nothing in the output: only the displacements enter. *)
Theorem compute_field_translation x y cs (tx ty : R) :
  compute_field exact ((λ v, v + tx) <$> x) ((λ v, v + ty) <$> y)
    ((λ c, (magnitude c, pos_x c + tx, pos_y c + ty)) <$> cs)
  = compute_field exact x y cs.
Proof.
  unfold compute_field, loop.
  assert (Hinit : init exact ((λ v, v + tx) <$> x) ((λ v, v + ty) <$> y)
                  = init exact x y).
  { unfold init, zeros_like, ones_like. by rewrite !fmap_const_after. }
  rewrite Hinit. generalize (init exact x y).
  induction cs as [|[[q cx] cy] cs IH]; intros a; [done|].
  cbn [fmap list_fmap foldl]. unfold magnitude, pos_x, pos_y; cbn [fst snd].
  assert (Hbody : body exact ((λ v, v + tx) <$> x) ((λ v, v + ty) <$> y) a
                    (q, cx + tx, cy + ty)
                  = body exact x y a (q, cx, cy)).
  { unfold body. change (a_sub exact) with Rminus.
    by rewrite (fmap_shift tx cx x), (fmap_shift ty cy y). }
  specialize (IH (body exact x y a (q, cx, cy))).
  unfold magnitude, pos_x, pos_y in IH. cbn [fst snd] in IH.
  rewrite <- IH, <- Hbody. reflexivity.
Qed.

(** ** Sampling at a charge centre *)

(** A grid point that coincides with a charge centre is no division by zero:
    that charge contributes [0] to both field components and [q / 1e-20] to
    the potential there, and the point is masked whatever the other charges
    are. *)
Theorem at_charge_centre x y cs (q cx cy : R) (i : nat) :
  x !! i = Some cx → y !! i = Some cy →
  data (out_Ex exact x y [(q, cx, cy)]) !! i = Some 0 ∧
  data (out_Ey exact x y [(q, cx, cy)]) !! i = Some 0 ∧
  data (out_V exact x y [(q, cx, cy)]) !! i = Some (q / 1e-20) ∧
  ((q, cx, cy) ∈ cs → masked (out_V exact x y cs) !! i = Some true).
Proof.
  intros Hx Hy.
  assert (Hd : dist exact cx cy (q, cx, cy) = 0).
  { unfold dist, pos_x, pos_y; simpl.
    replace ((cx - cx) * ((cx - cx) * 1) + (cy - cy) * ((cy - cy) * 1))
      with 0 by lra.
    apply sqrt_0. }
  destruct (exact_data_at x y [(q, cx, cy)] i cx cy Hx Hy) as (A1 & B1 & C1).
  cbn [fmap list_fmap] in A1, B1, C1. rewrite Rsum_cons in A1, B1, C1.
  change (Rsum []) with 0 in A1, B1, C1.
  split; [|split; [|split]].
  - rewrite A1. f_equal. unfold coulomb_Ex, magnitude, pos_x; simpl.
    unfold Rdiv. ring.
  - rewrite B1. f_equal. unfold coulomb_Ey, magnitude, pos_y; simpl.
    unfold Rdiv. ring.
  - rewrite C1. f_equal. unfold coulomb_V, r_at, magnitude.
    change (q / (dist exact cx cy (q, cx, cy) + 1e-20) + 0 = q / 1e-20).
    rewrite Hd, Rplus_0_l, Rplus_0_r. reflexivity.
  - intros Hin.
    destruct (loop_at exact x y cs i cx cy Hx Hy) as (_ & _ & _ & Hm).
    unfold out_V, compute_field, masked_where; cbn [fst snd masked].
    rewrite list_lookup_fmap, Hm. simpl. f_equal.
    apply negb_true_iff. apply not_true_is_false. intros Hall.
    destruct (all_far_spec exact cx cy cs) as [Hspec _].
    specialize (Hspec Hall _ Hin). rename Hspec into Hfar.
    apply bool_decide_eq_true in Hfar.
    change (dist exact cx cy (q, cx, cy) + 1e-20 > 0.22) in Hfar.
    rewrite Hd in Hfar. lra.
Qed.

Lemma at_charge_centre_example :
  ([2] : list R) !! 0%nat = Some 2 ∧ ([3] : list R) !! 0%nat = Some 3 ∧
  data (out_V exact [2] [3] [(-1, 2, 3)]) !! 0%nat = Some (-1 / 1e-20).
Proof.
  split; [reflexivity|]. split; [reflexivity|].
  apply (at_charge_centre [2] [3] [] (-1) 2 3 0); reflexivity.
Defined.

End exact_more.

(** * The guard at valid points, in double precision *)

Section guard_invisible.

#[local] Open Scope Z_scope.

Lemma add_guard_unchanged (m : positive) (e : Z) :
  SpecFloat.bounded prec emax m e = true → -65 <= e →
  SF64add (S754_finite false m e) B64.guard = S754_finite false m e.
Proof.
  intros Hv He. unfold SpecFloat.bounded in Hv. apply andb_true_iff in Hv as [Hc Hb].
  apply Z.leb_le in Hb. change (emax - prec) with 971 in Hb.
  destruct (canonical_digits m e Hc) as (Hd & Hemin & Hnorm).
  unfold SF64add, SFadd, B64.guard.
  replace (Z.min e (-119)) with (-119) by lia.
  rewrite (shl_align_value m e (-119)), (shl_align_value _ (-119) (-119))
    by lia.
  cbn [fst cond_Zopp].
  assert (Hpa : 0 < 2 ^ (e - -119)) by (apply Z.pow_pos_nonneg; lia).
  rewrite !Z2Pos.id by (simpl; lia).
  replace (-119 - -119) with 0 by lia. rewrite Z.pow_0_r, Z.mul_1_r.
  destruct (Zpos m * 2 ^ (e - -119) + 6646139978924579) as [|p|p] eqn:Hsum;
    try lia.
  cbn [binary_normalize].
  rewrite (binary_round_absorb false m p (e + 119) 6646139978924579 (-119)).
  - do 2 f_equal. lia.
  - apply Hnorm. lia.
  - lia.
  - split; [lia|].
    assert (2 ^ 53 <= 2 ^ (e + 119 - 1)) by (apply Z.pow_le_mono_r; lia).
    assert (6646139978924579 < 2 ^ 53) by (vm_compute; reflexivity). lia.
  - rewrite <- Hsum. replace (e - -119) with (e + 119) by lia. reflexivity.
  - lia.
Qed.

(** A double above the cutoff is [+infinity] or a positive number of
    exponent at least that of the cutoff. *)
Lemma above_cutoff_shape (s : spec_float) :
  SFltb B64.cutoff s = true →
  s = S754_infinity false ∨ ∃ m e, s = S754_finite false m e ∧ -55 <= e.
Proof.
  destruct s as [sg|sg| |sg m e]; try done.
  - destruct sg; [done|]. by left.
  - destruct sg; [done|]. unfold SFltb, SFcompare, B64.cutoff.
    intros H. right. exists m, e. split; [done|].
    revert H. destruct (Z.compare_spec (-55) e) as [He|He|He]; intros H;
      (lia || discriminate H).
Qed.

End guard_invisible.

(** For every double [d] above [0.22], [d + 1e-20] is [d] itself. *)
Lemma guard_invisible_above_cutoff (d : float) :
  PrimFloat.ltb 0.22 d = true → PrimFloat.add d 1e-20 = d.
Proof.
  intros Hd. apply Prim2SF_inj. rewrite add_spec.
  rewrite ltb_spec in Hd. change (Prim2SF 0.22) with B64.cutoff in Hd.
  change (Prim2SF 1e-20) with B64.guard.
  pose proof (Prim2SF_valid d) as Hv.
  destruct (above_cutoff_shape _ Hd) as [Hs|(m & e & Hs & He)];
    rewrite Hs in *.
  - reflexivity.
  - apply add_guard_unchanged; [exact Hv | lia].
Qed.

Section binary64_guard.

Variable npy_power : float → nat → float.

Implicit Types (x y : list float) (cs : list (float * float * float)).

(** In double precision the guard does not touch what is displayed: at a
    valid grid point the regularised distance to every charge is the computed
    distance itself, bit for bit, so the contributions there are the plain
    Coulomb terms [q dx / d^3], [q dy / d^3] and [q / d]. *)
Theorem guard_invisible_at_valid_points x y cs (i : nat) (px py : float) :
  x !! i = Some px → y !! i = Some py →
  valid (out_V (binary64 npy_power) x y cs) i →
  ∀ c, c ∈ cs →
    r_at (binary64 npy_power) px py c = dist (binary64 npy_power) px py c ∧
    coulomb_V (binary64 npy_power) px py c
      = PrimFloat.div (magnitude c) (dist (binary64 npy_power) px py c) ∧
    coulomb_Ex (binary64 npy_power) px py c
      = PrimFloat.div
          (PrimFloat.mul (magnitude c) (PrimFloat.sub px (pos_x c)))
          (npy_power (dist (binary64 npy_power) px py c) 3) ∧
    coulomb_Ey (binary64 npy_power) px py c
      = PrimFloat.div
          (PrimFloat.mul (magnitude c) (PrimFloat.sub py (pos_y c)))
          (npy_power (dist (binary64 npy_power) px py c) 3).
Proof.
  intros Hx Hy Hv c Hc.
  change (valid (out_Ex (binary64 npy_power) x y cs) i) in Hv.
  apply (valid_iff_all_far _ x y cs i px py Hx Hy) in Hv.
  destruct (all_far_spec (binary64 npy_power) px py cs) as [Hspec _].
  specialize (Hspec Hv c Hc).
  assert (Hr : r_at (binary64 npy_power) px py c
               = dist (binary64 npy_power) px py c).
  { unfold r_at in *. cbn [a_gt a_add a_guard a_cutoff binary64] in *.
    apply guard_invisible_above_cutoff.
    by rewrite <- guard_absorbed. }
  split; [exact Hr|].
  unfold coulomb_V, coulomb_Ex, coulomb_Ey. rewrite Hr. done.
Qed.

End binary64_guard.

Lemma guard_invisible_at_valid_points_example :
  let A := binary64 B64.power_by_mul in
  [1%float] !! 0%nat = Some 1%float ∧ [0%float] !! 0%nat = Some 0%float ∧
  valid (out_V A [1%float] [0%float] [(1, 0, 0)%float]) 0 ∧
  ∀ c, c ∈ [(1, 0, 0)%float] →
    r_at A 1%float 0%float c = dist A 1%float 0%float c.
Proof.
  intros A.
  assert (Hv : valid (out_V A [1%float] [0%float] [(1, 0, 0)%float]) 0)
    by (vm_compute; reflexivity).
  split; [reflexivity|]. split; [reflexivity|]. split; [exact Hv|].
  intros c Hc.
  apply (guard_invisible_at_valid_points B64.power_by_mul [1%float] [0%float]
           [(1, 0, 0)%float] 0 1%float 0%float eq_refl eq_refl Hv c Hc).
Defined.

(** * Further properties of [plot_field] *)

Section plot_more.

Implicit Types (c : charge) (cs : list charge) (st : state).

(** ** Where the field lines start *)

Lemma on_circle (cx cy a : R) :
  sqrt ((cx + 0.35 * cos a - cx) ^ 2 + (cy + 0.35 * sin a - cy) ^ 2) = 0.35.
Proof.
  replace ((cx + 0.35 * cos a - cx) ^ 2 + (cy + 0.35 * sin a - cy) ^ 2)
    with (0.35 * 0.35 * (Rsqr (sin a) + Rsqr (cos a)))
    by (unfold Rsqr; simpl; ring).
  rewrite sin2_cos2, Rmult_1_r. apply sqrt_square. lra.
Qed.

(** Every start point of a charge lies at distance [0.35] from its centre:
    outside the disc the mask excludes around that charge, and outside the
    radius within which a click hits it. *)
Theorem seeds_at_start_radius c (s : R * R) :
  s ∈ seeds_of c →
  dist exact s.1 s.2 c = 0.35 ∧
  r_at exact s.1 s.2 c > 0.22 ∧
  ¬ near (MouseEvent true 1 None s.1 s.2) c.
Proof.
  intros Hs. unfold seeds_of in Hs. apply list_elem_of_fmap in Hs as (k & -> & _).
  cbn [fst snd].
  set (a := 2 * PI * IZR k / IZR (Num.int (Rabs (magnitude c) * 16))).
  assert (Hd : dist exact (pos_x c + 0.35 * cos a) (pos_y c + 0.35 * sin a) c
               = 0.35) by apply on_circle.
  split; [exact Hd|]. split.
  - change (dist exact (pos_x c + 0.35 * cos a) (pos_y c + 0.35 * sin a) c
            + 1e-20 > 0.22).
    rewrite Hd. lra.
  - intros Hn.
    change (dist exact (pos_x c + 0.35 * cos a) (pos_y c + 0.35 * sin a) c
            < 0.3) in Hn.
    rewrite Hd in Hn. lra.
Qed.

Lemma seeds_at_start_radius_example :
  (0.35, 0) ∈ seeds_of (1, 0, 0) ∧ dist exact 0.35 0 (1, 0, 0) = 0.35.
Proof.
  assert (Hin : (0.35, 0) ∈ seeds_of (1, 0, 0)).
  { unfold seeds_of. apply list_elem_of_fmap. exists 0%Z. split.
    - replace (2 * PI * 0 / IZR (Num.int (Rabs (magnitude (1, 0, 0)) * 16)))
        with 0 by (unfold Rdiv; ring).
      rewrite cos_0, sin_0. unfold pos_x, pos_y; simpl. f_equal; lra.
    - unfold Num.range. apply elem_of_seqZ.
      rewrite num_field_lines_floor. unfold magnitude; simpl.
      rewrite Rabs_R1. replace (16 * 1) with (IZR 16) by lra.
      rewrite ZfloorZ. lia. }
  split; [exact Hin|].
  exact (proj1 (seeds_at_start_radius (1, 0, 0) (0.35, 0) Hin)).
Defined.

(** ** When the field-line layer is drawn *)


Lemma start_points_concat cs : start_points cs = concat (seeds_of <$> cs).
Proof. unfold start_points. by rewrite start_points_from. Qed.



(** ** The sample grid *)

Lemma length_linspace (a b : R) (n : Z) : length (linspace a b n) = Z.to_nat n.
Proof. unfold linspace, Num.range. by rewrite length_fmap, length_seqZ. Qed.

Lemma linspace_bounds (a b : R) (n : Z) (v : R) :
  a <= b → (1 < n)%Z → v ∈ linspace a b n → a <= v <= b.
Proof.
  intros Hab Hn Hv. unfold linspace, Num.range in Hv.
  apply list_elem_of_fmap in Hv as (i & -> & Hi).
  apply elem_of_seqZ in Hi.
  assert (Hd : 0 < IZR (n - 1)) by (apply IZR_lt; lia).
  assert (Hi0 : 0 <= IZR i) by (apply IZR_le; lia).
  assert (Hi1 : IZR i <= IZR (n - 1)) by (apply IZR_le; lia).
  assert (Ht0 : 0 <= IZR i / IZR (n - 1))
    by (apply Rmult_le_pos; [done|left; by apply Rinv_0_lt_compat]).
  assert (Ht1 : IZR i / IZR (n - 1) <= 1).
  { apply Rmult_le_reg_r with (IZR (n - 1)); [done|].
    unfold Rdiv. rewrite Rmult_assoc, Rinv_l; lra. }
  replace (IZR i * ((b - a) / IZR (n - 1)))
    with (IZR i / IZR (n - 1) * (b - a)) by (unfold Rdiv; ring).
  generalize dependent (IZR i / IZR (n - 1)). intros t Ht0 Ht1. nra.
Qed.

Lemma length_bind_const {A B : Type} (f : A → list B) (k : nat) (l : list A) :
  (∀ v, length (f v) = k) → length (l ≫= f) = (length l * k)%nat.
Proof.
  intros Hf. induction l as [|v l IH]; [done|].
  rewrite bind_cons, length_app, Hf, IH. simpl. lia.
Qed.

Lemma length_meshgrid (x y : list R) :
  length (meshgrid x y).1 = (length y * length x)%nat ∧
  length (meshgrid x y).2 = (length y * length x)%nat.
Proof.
  unfold meshgrid; cbn [fst snd]. split; apply length_bind_const; intros v.
  - done.
  - by rewrite length_fmap.
Qed.

Lemma meshgrid_elements (x y : list R) (v : R) :
  (v ∈ (meshgrid x y).1 → v ∈ x) ∧ (v ∈ (meshgrid x y).2 → v ∈ y).
Proof.
  unfold meshgrid; cbn [fst snd]. split; intros Hv.
  - by apply list_elem_of_bind in Hv as (_ & Hv & _).
  - apply list_elem_of_bind in Hv as (w & Hv & Hw).
    by apply list_elem_of_fmap in Hv as (_ & -> & _).
Qed.

Lemma potential_length (x y : list R) cs :
  length y = length x →
  length (data (compute_field exact x y cs).2) = length x.
Proof.
  intros Hxy.
  destruct (foldl_body_lengths exact x y cs (length x) (init exact x y))
    as (_ & _ & HV & _);
    unfold init, zeros_like, ones_like; cbn [Ex Ey V mask];
    rewrite ?length_fmap; try done.
Qed.

(** The field is sampled at [1200 * 1200] points; the two coordinate arrays
    have the same shape, every coordinate lies in [[-10, 10]], and the
    potential drawn by a redraw has one value for every sample point. *)
Theorem sample_grid st :
  Z.of_nat (length grid_X) = 1440000%Z ∧
  length grid_Y = length grid_X ∧
  (∀ v, v ∈ grid_X ∨ v ∈ grid_Y → -10 <= v <= 10) ∧
  length (data (fields (render st)).2) = length grid_X.
Proof.
  destruct (length_meshgrid (linspace (-10) 10 1200) (linspace (-10) 10 1200))
    as [HX HY].
  fold grid_X in HX. fold grid_Y in HY.
  assert (Hshape : length grid_Y = length grid_X)
    by exact (eq_trans HY (eq_sym HX)).
  split; [|split; [exact Hshape|split]].
  - rewrite HX, !length_linspace. lia.
  - intros v Hv.
    apply (linspace_bounds (-10) 10 1200); [lra|lia|].
    destruct Hv as [Hv|Hv].
    + exact (proj1 (meshgrid_elements (linspace (-10) 10 1200)
                      (linspace (-10) 10 1200) v) Hv).
    + exact (proj2 (meshgrid_elements (linspace (-10) 10 1200)
                      (linspace (-10) 10 1200) v) Hv).
  - clear HX HY. unfold render; cbn [fields].
    exact (potential_length grid_X grid_Y (charges st) Hshape).
Qed.

End plot_more.

(** * Further properties of the handlers *)

Section handlers_more.

Implicit Types (st : state) (event : mouse_event) (cs : list charge)
  (c : charge) (answer : option R).

(** ** [modify_charge_dialog] *)

(** The state [modify_charge_dialog] leaves for the charge [c] at [index]. *)
Lemma modify_charge_dialog_at st (index : nat) c answer :
  charges st !! index = Some c →
  modify_charge_dialog index answer st
    = Returned (plot_field
        (match answer with
         | Some new_q =>
             set_charges (<[index := (new_q, pos_x c, pos_y c)]> (charges st))
               (emit (AskFloat (magnitude c)) st)
         | None => emit (AskFloat (magnitude c)) st
         end)).
Proof.
  intros Hc. unfold modify_charge_dialog. rewrite Hc. by destruct answer.
Qed.




(** ** [onclick] *)

Lemma scan_in_range event cs : ∀ k j,
  scan event k cs = Delete j ∨ scan event k cs = Modify j →
  (k <= j < k + length cs)%nat.
Proof.
  induction cs as [|c cs IH]; intros k j H; cbn [scan] in H.
  - by destruct H.
  - cbn [length].
    destruct (bool_decide (Num.hypot _ _ < 0.3)).
    + destruct (bool_decide (button event = 3%Z)).
      * destruct H as [H|H]; inversion H; lia.
      * destruct (bool_decide (button event = 1%Z) && _).
        -- destruct H as [H|H]; inversion H; lia.
        -- apply IH in H. lia.
    + apply IH in H. lia.
Qed.



(** The four ways a click can end. *)
Lemma onclick_cases st event answer :
  onclick event answer st = Returned st ∨
  (∃ i, (i < length (charges st))%nat ∧
        onclick event answer st
          = Returned (plot_field (set_charges (delete i (charges st)) st))) ∨
  (∃ i c, charges st !! i = Some c ∧
        onclick event answer st
          = Returned (plot_field
              (match answer with
               | Some new_q =>
                   set_charges
                     (<[i := (new_q, pos_x c, pos_y c)]> (charges st))
                     (emit (AskFloat (magnitude c)) st)
               | None => emit (AskFloat (magnitude c)) st
               end))) ∨
  (∃ q, (q = 1 ∨ q = -1) ∧
        onclick event answer st
          = Returned (plot_field
              (set_charges (charges st ++ [(q, xdata event, ydata event)])
                 st))).
Proof.
  unfold onclick. destruct (inaxes event); [|by left].
  destruct (scan event 0 (charges st)) as [i|i|] eqn:Hscan.
  - right; left. exists i. split; [|done].
    apply (scan_in_range event (charges st) 0 i). by left.
  - right; right; left.
    assert (Hi : (i < length (charges st))%nat)
      by (apply (scan_in_range event (charges st) 0 i); by right).
    apply lookup_lt_is_Some in Hi as [c Hc].
    exists i, c. split; [done|]. by apply modify_charge_dialog_at.
  - destruct (bool_decide (button event = 1%Z)).
    + right; right; right. exists 1. split; [by left|done].
    + destruct (bool_decide (button event = 3%Z)).
      * right; right; right. exists (-1). split; [by right|done].
      * by left.
Qed.







(** ** [onkeypress] *)




(** Key ["c"] empties the charge list, keeps the flags, and redraws twice,
    once in [clear_charges] and once at the end of the handler; both frames
    are the same, with no marker and no field-line layer. *)
Theorem key_c_clears (typed : string) st :
  ∃ st' f,
    onkeypress "c" typed st = Returned st' ∧
    charges st' = [] ∧
    show_field_lines st' = show_field_lines st ∧
    show_equipotential_lines st' = show_equipotential_lines st ∧
    show_equipotential_map st' = show_equipotential_map st ∧
    trace st' = trace st ++ [Draw f; Draw f] ∧
    f = render st' ∧ markers f = [] ∧ streamplot f = None.
Proof.
  do 2 eexists. unfold onkeypress.
  rewrite !bool_decide_eq_false_2 by discriminate.
  rewrite bool_decide_eq_true_2 by reflexivity.
  split; [reflexivity|].
  cbn [bind clear_charges plot_field emit set_charges charges show_field_lines
       show_equipotential_lines show_equipotential_map trace].
  do 4 (split; [reflexivity|]).
  split; [by rewrite <- app_assoc|].
  split; [reflexivity|].
  split; [reflexivity|].
  unfold render; cbn [streamplot charges show_field_lines].
  by rewrite andb_false_r.
Qed.

End handlers_more.

(** * The event loop *)

Section session_facts.

Implicit Types (st : state) (tr : list effect) (cs : list charge)
  (c : charge) (ev : Session.event) (evs : list Session.event).

(** ** The figure shows the current state *)




Lemma onkeypress_cases (key typed : string) st :
  onkeypress key typed st
    = Raised (NameError "field_save") (emit (Input "Save as?") st) ∨
  ∃ st0, onkeypress key typed st = Returned (plot_field st0) ∧
         (charges st0 = charges st ∨ charges st0 = []) ∧
         (trace st0 = trace st ∨ ∃ f, trace st0 = trace st ++ [Draw f]).
Proof.
  unfold onkeypress.
  case_bool_decide;
    [right; eexists; split; [reflexivity|split; by left]|].
  case_bool_decide;
    [right; eexists; split; [reflexivity|split; by left]|].
  case_bool_decide;
    [right; eexists; split; [reflexivity|split; right; [done|by eexists]]|].
  case_bool_decide;
    [right; eexists; split; [reflexivity|split; by left]|].
  case_bool_decide;
    [|right; eexists; split; [reflexivity|split; by left]].
  left. cbv zeta. by rewrite field_save_unbound.
Qed.



(** ** How the charge list evolves *)

(** A predicate on charges that holds of the charges a click creates is kept
    by every event that does not confirm a number in the dialog. *)
Lemma dispatch_keeps (P : charge → Prop) ev st :
  (∀ x y, P (1, x, y)) → (∀ x y, P (-1, x, y)) →
  (∀ e answer, ev = Session.Click e answer → answer = None) →
  Forall P (charges st) →
  Forall P (charges (final (Session.dispatch ev st))).
Proof.
  intros Hp Hm Hev Hst. destruct ev as [e answer|key typed];
    cbn [Session.dispatch].
  - rewrite (Hev e answer eq_refl).
    destruct (onclick_cases st e None)
      as [H|[(i & _ & H)|[(i & c & _ & H)|(q & Hq & H)]]];
      rewrite H; cbn [final plot_field emit set_charges charges].
    + done.
    + by apply Forall_delete.
    + done.
    + apply Forall_app. split; [done|].
      apply Forall_singleton. by destruct Hq as [->| ->].
  - destruct (onkeypress_cases key typed st) as [H|(st0 & H & [Hc|Hc] & _)];
      rewrite H; cbn [final plot_field emit charges].
    + done.
    + by rewrite Hc.
    + rewrite Hc. apply Forall_nil_2.
Qed.

Lemma unit_charge_seeds c :
  magnitude c = 1 ∨ magnitude c = -1 → length (seeds_of c) = 16%nat.
Proof.
  intros Hq. rewrite length_seeds_of.
  assert (Habs : Rabs (magnitude c) = 1).
  { destruct Hq as [-> | ->]; unfold Rabs; destruct (Rcase_abs _); lra. }
  rewrite Habs. replace (16 * 1) with (IZR 16) by lra.
  by rewrite ZfloorZ.
Qed.

Lemma unit_charges_start_points cs :
  Forall (λ c, magnitude c = 1 ∨ magnitude c = -1) cs →
  length (start_points cs) = (16 * length cs)%nat.
Proof.
  intros Hcs. rewrite start_points_concat.
  induction Hcs as [|c cs Hc _ IH]; [done|].
  rewrite fmap_cons, concat_cons, length_app, IH, (unit_charge_seeds c Hc).
  cbn [length]. lia.
Qed.

(** As long as no number is confirmed in the magnitude dialog, every charge
    on the board has magnitude [1] or [-1], so the field lines start from
    sixteen points per charge. *)
Theorem unit_charges_without_dialog evs :
  Forall (λ ev, ∀ e answer, ev = Session.Click e answer → answer = None) evs →
  Forall (λ c, magnitude c = 1 ∨ magnitude c = -1)
    (charges (Session.run evs Session.startup)) ∧
  length (start_points (charges (Session.run evs Session.startup)))
    = (16 * length (charges (Session.run evs Session.startup)))%nat.
Proof.
  intros Hevs.
  assert (Hunit : Forall (λ c, magnitude c = 1 ∨ magnitude c = -1)
                    (charges (Session.run evs Session.startup))).
  { unfold Session.run.
    assert (H0 : Forall (λ c, magnitude c = 1 ∨ magnitude c = -1)
                   (charges Session.startup)) by apply Forall_nil_2.
    revert H0. generalize Session.startup.
    induction Hevs as [|ev evs Hev _ IH]; intros st Hst; cbn [foldl]; [done|].
    apply IH. apply dispatch_keeps; [by left|by right|done..]. }
  split; [exact Hunit|]. by apply unit_charges_start_points.
Qed.

Lemma unit_charges_without_dialog_example :
  let evs := [Session.Click (MouseEvent true 1 None 0 0) None;
              Session.Key "1" "";
              Session.Click (MouseEvent true 3 None 2 0) None] in
  Forall (λ ev, ∀ e answer, ev = Session.Click e answer → answer = None) evs ∧
  Forall (λ c, magnitude c = 1 ∨ magnitude c = -1)
    (charges (Session.run evs Session.startup)) ∧
  length (start_points (charges (Session.run evs Session.startup)))
    = (16 * length (charges (Session.run evs Session.startup)))%nat.
Proof.
  intros evs.
  assert (Hevs : Forall (λ ev, ∀ e answer,
                    ev = Session.Click e answer → answer = None) evs).
  { repeat apply Forall_cons_2; [..|apply Forall_nil_2];
      intros e answer H; by inversion H. }
  split; [exact Hevs|]. exact (unit_charges_without_dialog evs Hevs).
Defined.

Lemma dispatch_length ev st :
  (length (charges (final (Session.dispatch ev st)))
     <= length (charges st) + 1)%nat.
Proof.
  destruct ev as [e answer|key typed]; cbn [Session.dispatch].
  - destruct (onclick_cases st e answer)
      as [H|[(i & Hi & H)|[(i & c & _ & H)|(q & _ & H)]]];
      rewrite H; cbn [final plot_field emit set_charges charges].
    + lia.
    + rewrite length_delete by (by apply lookup_lt_is_Some). lia.
    + destruct answer; cbn [set_charges emit charges];
        rewrite ?length_insert; lia.
    + rewrite length_app. cbn [length]. lia.
  - destruct (onkeypress_cases key typed st) as [H|(st0 & H & [Hc|Hc] & _)];
      rewrite H; cbn [final plot_field emit charges]; rewrite ?Hc;
      cbn [length]; lia.
Qed.

(** From any state, a run of events adds at most one charge per event; after
    start-up the board therefore never holds more charges than events have
    arrived. *)
Theorem charges_bounded_by_events evs st :
  (length (charges (Session.run evs st))
     <= length (charges st) + length evs)%nat ∧
  (length (charges (Session.run evs Session.startup)) <= length evs)%nat.
Proof.
  assert (Hrun : ∀ st0, (length (charges (Session.run evs st0))
                           <= length (charges st0) + length evs)%nat).
  { unfold Session.run.
    induction evs as [|ev evs IH]; intros st0; cbn [foldl length]; [lia|].
    pose proof (IH (final (Session.dispatch ev st0))).
    pose proof (dispatch_length ev st0). lia. }
  split; [apply Hrun|]. apply (Hrun Session.startup).
Qed.

(** ** Nothing is ever saved *)

Lemma dispatch_no_file ev st :
  (∀ fname, Savefig fname ∉ trace st) →
  ∀ fname, Savefig fname ∉ trace (final (Session.dispatch ev st)).
Proof.
  intros Hst fname. destruct ev as [e answer|key typed]; cbn [Session.dispatch].
  - destruct (onclick_cases st e answer)
      as [H|[(i & _ & H)|[(i & c & _ & H)|(q & _ & H)]]];
      rewrite H; cbn [final]; [done|..];
      try destruct answer;
      unfold plot_field, emit, set_charges; cbn [trace];
      rewrite ?not_elem_of_app, ?not_elem_of_cons;
      repeat split; try done; apply not_elem_of_nil.
  - destruct (onkeypress_cases key typed st)
      as [H|(st0 & H & _ & [Htr|[f Htr]])];
      rewrite H; cbn [final]; unfold plot_field, emit; cbn [trace];
      rewrite ?Htr, ?not_elem_of_app, ?not_elem_of_cons;
      repeat split; try done; apply not_elem_of_nil.
Qed.

(** No run of events writes a file: [savefig] is never reached, because the
    only call to it comes after the failing name lookup. *)
Theorem never_saves evs (fname : string) :
  Savefig fname ∉ trace (Session.run evs Session.startup).
Proof.
  revert fname. unfold Session.run.
  assert (H0 : ∀ fname, Savefig fname ∉ trace Session.startup).
  { intros fname. cbn. rewrite not_elem_of_cons. split; [done|].
    apply not_elem_of_nil. }
  revert H0. generalize Session.startup.
  induction evs as [|ev evs IH]; intros st Hst; cbn [foldl]; [done|].
  by apply IH, dispatch_no_file.
Qed.

End session_facts.
